(** * Relay engine helpers of code-switch (services/relay_common.go)

    A shallow embedding of the provider filter, the round-robin reorder,
    the retry bookkeeping, the failure response and the tool-use repair,
    followed by the properties of the specification that concern them.

    Conventions of the embedding:
    - Go [string] is [string]; Go [int] on the supported targets (amd64,
      arm64) is a 64-bit two's complement integer, kept as a [Z] with the
      wrap-around written out where the code does arithmetic on it;
    - a slice is a [list]; [map[string]string] is a [gmap string string]
      read with Go's zero value for an absent key;
    - a nil-able function argument is an [option];
    - [fmt.Printf] diagnostics are not part of the state that is modelled;
    - the mutex of [RoundRobinState] makes each [Reorder] atomic, so a call
      is a function from the state before to the state after. *)

From Stdlib Require Import Ascii String.
From stdpp Require Import gmap strings list pretty sorting.

Local Open Scope nat_scope.

(* ===================================================================== *)
(** * Go integers *)
(* ===================================================================== *)

Module GoInt.

Definition max_int : Z := 9223372036854775807.
Definition min_int : Z := -9223372036854775808.

(** Two's complement wrap-around of a 64-bit signed integer. *)
Definition wrap (z : Z) : Z :=
  ((z + 9223372036854775808) `mod` 18446744073709551616 - 9223372036854775808)%Z.

(** [x++] *)
Definition incr (z : Z) : Z := wrap (z + 1).

End GoInt.

(* ===================================================================== *)
(** * Providers and the [ProviderLike] interface *)
(* ===================================================================== *)

(** The struct declarations of [Provider] and [GeminiProvider] live in
    another file of the package; the records below carry the fields that
    the methods of relay_common.go read. *)
Record Provider := mkProvider {
  Name : string;
  Level : Z;
  Enabled : bool;
  APIURL : string;
  APIKey : string
}.

Record GeminiProvider := mkGeminiProvider {
  GeminiName : string;
  GeminiLevel : Z;
  GeminiEnabled : bool;
  BaseURL : string
}.

Class ProviderLike (T : Type) := {
  GetName : T → string;
  GetLevel : T → Z;
  IsEnabled : T → bool;
  HasValidConfig : T → bool
}.

(** [s != ""] *)
Definition nonempty (s : string) : bool := bool_decide (s ≠ "").

#[export] Instance Provider_ProviderLike : ProviderLike Provider := {|
  GetName p := Name p;
  GetLevel p := if bool_decide (Level p ≤ 0)%Z then 1%Z else Level p;
  IsEnabled p := Enabled p;
  HasValidConfig p := nonempty (APIURL p) && nonempty (APIKey p)
|}.

#[export] Instance GeminiProvider_ProviderLike : ProviderLike GeminiProvider := {|
  GetName p := GeminiName p;
  GetLevel p := if bool_decide (GeminiLevel p ≤ 0)%Z then 1%Z else GeminiLevel p;
  IsEnabled p := GeminiEnabled p;
  HasValidConfig p := nonempty (BaseURL p)
|}.

(* ===================================================================== *)
(** * Provider filtering *)
(* ===================================================================== *)

(** [time.Time], only carried around for the log line. *)
Definition Time := Z.

(** [func(kind, name string) (bool, time.Time)] *)
Definition BlacklistChecker := string → string → bool * Time.
(** [func(p *Provider, model string) bool]; the hook is taken to read its
    argument only. *)
Definition ModelChecker := Provider → string → bool.
(** [func(p *Provider) []string]; the hook is taken to read its argument
    only. *)
Definition ConfigValidator := Provider → list string.

Record FilterResult (T : Type) := mkFilterResult {
  Active : list T;
  SkippedCount : nat
}.
Arguments mkFilterResult {T} _ _.
Arguments Active {T} _.
Arguments SkippedCount {T} _.

(** [result.SkippedCount++; continue].  The counter is bounded by the
    length of the slice, which Go keeps within [int], so it cannot wrap. *)
Definition skip {T} (result : FilterResult T) : FilterResult T :=
  mkFilterResult (Active result) (S (SkippedCount result)).

(** [result.Active = append(result.Active, provider)] *)
Definition keep {T} (result : FilterResult T) (provider : T) : FilterResult T :=
  mkFilterResult (Active result ++ [provider]) (SkippedCount result).

Definition configRejects (configValidator : option ConfigValidator) (provider : Provider) : bool :=
  match configValidator with
  | Some validate => bool_decide (0 < length (validate provider))
  | None => false
  end.

Definition modelRejects (modelChecker : option ModelChecker) (requestedModel : string)
    (provider : Provider) : bool :=
  match modelChecker with
  | Some supports => nonempty requestedModel && negb (supports provider requestedModel)
  | None => false
  end.

Definition blacklisted (blacklistChecker : option BlacklistChecker) (kind name : string) : bool :=
  match blacklistChecker with
  | Some check => (check kind name).1
  | None => false
  end.

(** One iteration of the loop of [FilterProviders]. *)
Definition FilterProviders_step (kind requestedModel : string)
    (blacklistChecker : option BlacklistChecker)
    (modelChecker : option ModelChecker)
    (configValidator : option ConfigValidator)
    (result : FilterResult Provider) (provider : Provider) : FilterResult Provider :=
  if negb (IsEnabled provider) || negb (HasValidConfig provider) then result
  else if configRejects configValidator provider then skip result
  else if modelRejects modelChecker requestedModel provider then skip result
  else if blacklisted blacklistChecker kind (Name provider) then skip result
  else keep result provider.

Definition FilterProviders (providers : list Provider) (kind requestedModel : string)
    (blacklistChecker : option BlacklistChecker)
    (modelChecker : option ModelChecker)
    (configValidator : option ConfigValidator) : FilterResult Provider :=
  foldl (FilterProviders_step kind requestedModel blacklistChecker modelChecker configValidator)
        (mkFilterResult [] 0) providers.

(** One iteration of the loop of [FilterGeminiProviders]: the blacklist
    branch leaves the loop body without touching [SkippedCount]. *)
Definition FilterGeminiProviders_step (blacklistChecker : option BlacklistChecker)
    (result : FilterResult GeminiProvider) (provider : GeminiProvider)
    : FilterResult GeminiProvider :=
  if negb (IsEnabled provider) || negb (HasValidConfig provider) then result
  else if blacklisted blacklistChecker "gemini" (GeminiName provider) then result
  else keep result provider.

Definition FilterGeminiProviders (providers : list GeminiProvider)
    (blacklistChecker : option BlacklistChecker) : FilterResult GeminiProvider :=
  foldl (FilterGeminiProviders_step blacklistChecker) (mkFilterResult [] 0) providers.

(* ===================================================================== *)
(** * Round-robin state *)
(* ===================================================================== *)

Record RoundRobinState := mkRoundRobinState {
  lastStart : gmap string string
}.

Definition NewRoundRobinState : RoundRobinState := mkRoundRobinState ∅.

(** [fmt.Sprintf("%s:%d", platform, level)] *)
Definition rrKey (platform : string) (level : Z) : string :=
  platform +:+ ":" +:+ pretty level.

(** [m[key]] on a [map[string]string]: the zero value when absent. *)
Definition mapGet (m : gmap string string) (key : string) : string :=
  default "" (m !! key).

(** [rrs.lastStart[key] = name] *)
Definition setLastStart (rrs : RoundRobinState) (key name : string) : RoundRobinState :=
  mkRoundRobinState (<[key := name]> (lastStart rrs)).

(** The loop that fills [result]: [result[i] = providers[(lastIdx+1+i) % n]].
    [zero] stands for the zero value that [make] puts in every slot. *)
Definition ringFrom {T} (zero : T) (lastIdx : nat) (providers : list T) : list T :=
  (λ i, nth ((lastIdx + 1 + i) `mod` length providers) providers zero)
    <$> seq 0 (length providers).

Definition Reorder {T} (rrs : RoundRobinState) (platform : string) (level : Z)
    (providers : list T) (getName : T → string) : list T * RoundRobinState :=
  if bool_decide (length providers ≤ 1) then (providers, rrs)
  else
    match providers with
    | [] => (providers, rrs) (* excluded by the length test *)
    | first :: _ =>
      let key := rrKey platform level in
      let last := mapGet (lastStart rrs) key in
      (* rrs.lastStart[key] = getName(providers[0]) *)
      let rrs1 := setLastStart rrs key (getName first) in
      if bool_decide (last = "") then (providers, rrs1)
      else
        match list_find (λ p, getName p = last) providers with
        | None => (providers, rrs1)
        | Some (lastIdx, _) =>
          let result := ringFrom first lastIdx providers in
          (result, setLastStart rrs1 key (getName (nth 0 result first)))
        end
    end.

(* ===================================================================== *)
(** * Retry bookkeeping *)
(* ===================================================================== *)

(** A Go [error] value is kept as the text that [Error()] returns; the nil
    error is [None]. *)
Definition error := string.
Definition Error (e : error) : string := e.

Record RetryContext := mkRetryContext {
  MaxRetryPerProvider : Z;
  RetryWaitDuration : Z;
  TotalAttempts : Z;
  LastError : option error;
  LastProvider : string;
  LastDuration : Z
}.

(** [time.Second], in nanoseconds. *)
Definition Second : Z := 1000000000.

Definition NewRetryContext (failureThreshold retryWaitSeconds : Z) : RetryContext :=
  mkRetryContext failureThreshold (GoInt.wrap (retryWaitSeconds * Second)) 0 None "" 0.

Definition RecordAttempt (rc : RetryContext) (provider : string) (duration : Z)
    (err : option error) : RetryContext :=
  mkRetryContext
    (MaxRetryPerProvider rc)
    (RetryWaitDuration rc)
    (GoInt.incr (TotalAttempts rc))
    (match err with Some e => Some e | None => LastError rc end)
    provider
    duration.

(* ===================================================================== *)
(** * Failure response *)
(* ===================================================================== *)

(** The values that [BuildFailureResponse] stores in a [gin.H]
    ([map[string]any]). *)
Inductive any :=
  | AString (s : string)
  | AInt (z : Z).

Definition unknownError : string := "未知错误".
Definition failurePrefix : string := "所有 Provider 都失败，最后尝试: ".
Definition blacklistHint : string :=
  "拉黑模式已开启，同 Provider 重试到拉黑再切换。如需立即降级请关闭拉黑功能".

(** [fmt.Sprintf("所有 Provider 都失败，最后尝试: %s - %s", lastProvider, errorMsg)] *)
Definition failureText (lastProvider errorMsg : string) : string :=
  failurePrefix +:+ lastProvider +:+ " - " +:+ errorMsg.

Definition BuildFailureResponse (totalAttempts : Z) (lastProvider : string)
    (lastError : option error) (mode : string) : gmap string any :=
  let errorMsg := match lastError with Some e => Error e | None => unknownError end in
  let response : gmap string any :=
    <["totalAttempts" := AInt totalAttempts]>
      (<["lastProvider" := AString lastProvider]>
        (<["error" := AString (failureText lastProvider errorMsg)]> ∅)) in
  if bool_decide (mode = "blacklist")
  then <["hint" := AString blacklistHint]> (<["mode" := AString "blacklist_retry"]> response)
  else response.

(* ===================================================================== *)
(** * JSON documents as gjson and sjson see them *)
(* ===================================================================== *)

(** A request body is taken to be a syntactically valid JSON document and
    is kept as its tree.  An object keeps its members in source order,
    duplicates included, because gjson answers a key with the first member
    that carries it.  A number keeps its literal. *)
#[warnings="-register-all"]
Inductive json :=
  | JNull
  | JBool (b : bool)
  | JNumber (literal : string)
  | JString (s : string)
  | JArray (items : list json)
  | JObject (members : list (string * json)).

(** First member of an object with the given key. *)
Fixpoint member (key : string) (members : list (string * json)) : option json :=
  match members with
  | [] => None
  | (k, v) :: rest => if bool_decide (k = key) then Some v else member key rest
  end.

(** [gjson.Get(json, key)] / [Result.Get(key)] for a path that is one plain,
    non-numeric key (the paths of this file: messages, role, content, type,
    id).  [None] is the result that does not exist. *)
Definition gjson_Get (doc : json) (key : string) : option json :=
  match doc with
  | JObject members => member key members
  | _ => None
  end.

(** [Result.Exists()] *)
Definition Exists (r : option json) : bool :=
  match r with Some _ => true | None => false end.

(** [Result.IsArray()] *)
Definition IsArray (r : option json) : bool :=
  match r with Some (JArray _) => true | _ => false end.

(** [Result.Array()]: empty for null and for a missing result, the elements
    of an array, and a one-element slice for anything else. *)
Definition Array (r : option json) : list json :=
  match r with
  | None | Some JNull => []
  | Some (JArray items) => items
  | Some v => [v]
  end.

Definition isDigit (c : ascii) : bool :=
  let n := nat_of_ascii c in bool_decide (48 ≤ n) && bool_decide (n ≤ 57).

(** The test of [Result.String()] on a number: an optional leading minus
    followed by digits only. *)
Definition isIntegerLiteral (literal : string) : bool :=
  match literal with
  | String "-"%char rest => forallb isDigit (list_ascii_of_string rest)
  | _ => forallb isDigit (list_ascii_of_string literal)
  end.

(** [Result.ForEach] over the elements of an array: the iterator threads
    the variables it captures and says whether to go on. *)
Fixpoint ForEach {S : Type} (items : list json) (iterator : S → json → S * bool) (s : S) : S :=
  match items with
  | [] => s
  | item :: rest =>
    let '(s', continue) := iterator s item in
    if continue then ForEach rest iterator s' else s'
  end.

(** [sjson] setting index [n] inside an array: an existing element is
    replaced, index [len] appends, a larger index pads with null. *)
Definition sjson_setIndex (items : list json) (n : nat) (value : json) : list json :=
  if bool_decide (n < length items) then <[n := value]> items
  else items ++ replicate (n - length items) JNull ++ [value].

(** Rewrites the first member with the given key. *)
Fixpoint setMember (key : string) (f : json → json) (members : list (string * json))
    : option (list (string * json)) :=
  match members with
  | [] => None
  | (k, v) :: rest =>
    if bool_decide (k = key) then Some ((k, f v) :: rest)
    else cons (k, v) <$> setMember key f rest
  end.

(** [sjson.SetBytes(body, fmt.Sprintf("%s.%d", key, n), value)] on a document
    whose member [key] is an array: sjson locates the member with
    [gjson.Get] and splices the new array in its place.  Documents outside
    this fragment (no such member, a member that is not an array, a
    document that is not an object) are never passed by
    [FixIncompleteToolUse]; the model answers them with an error. *)
Definition sjson_Set (body : json) (key : string) (n : nat) (value : json) : error + json :=
  match body with
  | JObject members =>
    match member key members with
    | Some (JArray items) =>
      match setMember key (λ _, JArray (sjson_setIndex items n value)) members with
      | Some members' => inr (JObject members')
      | None => inl "sjson: path not found"
      end
    | _ => inl "sjson: not modelled"
    end
  | _ => inl "sjson: not modelled"
  end.

(* ===================================================================== *)
(** * Tool-use repair *)
(* ===================================================================== *)

Definition interruptedText : string :=
  "工具调用被中断（中转站切换），请重新执行此操作".

(** [map[string]interface{}{"type": "tool_result", "tool_use_id": id, ...}]
    as [encoding/json] writes a map: members sorted by key. *)
Definition toolResult (id : string) : json :=
  JObject [("content", JString interruptedText);
           ("is_error", JBool true);
           ("tool_use_id", JString id);
           ("type", JString "tool_result")].

(** The synthetic user message, members sorted by key as well. *)
Definition newUserMsg (toolUseIDs : list string) : json :=
  JObject [("content", JArray (toolResult <$> toolUseIDs));
           ("role", JString "user")].

(** [Result.String()] returns source text in two cases that the tree does
    not determine: a number that is not an integer literal goes through
    [strconv.FormatFloat], and an object or array yields its raw text.
    Both are parameters of the development. *)
Class GjsonText := {
  formatFloat : string → string;
  rawText : json → string
}.

(** An instance for concrete runs on documents that hold neither a
    fractional number nor a composite value where a string is read. *)
Definition plainText : GjsonText := {|
  formatFloat literal := literal;
  rawText _ := "{}"
|}.

Section ToolUseRepair.

Context `{GjsonText}.

(** [Result.String()] *)
Definition gjson_String (r : option json) : string :=
  match r with
  | None => ""
  | Some JNull => ""
  | Some (JBool true) => "true"
  | Some (JBool false) => "false"
  | Some (JNumber literal) =>
    if bool_decide (literal = "") then formatFloat literal
    else if isIntegerLiteral literal then literal
    else formatFloat literal
  | Some (JString s) => s
  | Some v => rawText v
  end.

(** [msg.Get(key).String()] *)
Definition field (msg : json) (key : string) : string :=
  gjson_String (gjson_Get msg key).

(** The backward scan [for i := len(messagesArray) - 1; i >= 0; i--];
    [i] counts the messages that are still to be visited. *)
Fixpoint lastAssistant (messagesArray : list json) (i : nat) : option (nat * json) :=
  match i with
  | 0 => None
  | S i' =>
    match messagesArray !! i' with
    | Some msg =>
      if bool_decide (field msg "role" = "assistant") then Some (i', msg)
      else lastAssistant messagesArray i'
    | None => None
    end
  end.

(** The iterator that collects the ids of tool_use items. *)
Definition collectToolUse (toolUseIDs : list string) (item : json) : list string * bool :=
  if bool_decide (field item "type" = "tool_use") then
    let id := field item "id" in
    if bool_decide (id ≠ "") then (toolUseIDs ++ [id], true)
    else (toolUseIDs, true)
  else (toolUseIDs, true).

(** The iterator that looks for a tool_result item and stops on it. *)
Definition findToolResult (hasToolResult : bool) (item : json) : bool * bool :=
  if bool_decide (field item "type" = "tool_result") then (true, false)
  else (hasToolResult, true).

(** The test on the message right after the last assistant message: role
    user, an array content, and a tool_result item in it. *)
Definition hasToolResultAfter (messagesArray : list json) (lastAssistantIdx : nat) : bool :=
  if bool_decide (lastAssistantIdx + 1 < length messagesArray) then
    match messagesArray !! (lastAssistantIdx + 1) with
    | Some nextMsg =>
      if bool_decide (field nextMsg "role" = "user") then
        let nextContent := gjson_Get nextMsg "content" in
        if IsArray nextContent then ForEach (Array nextContent) findToolResult false
        else false
      else false
    | None => false
    end
  else false.

(** [FixIncompleteToolUse(bodyBytes)]: the body, whether it was repaired,
    and the error. *)
Definition FixIncompleteToolUse (bodyBytes : json) : json * bool * option error :=
  let messages := gjson_Get bodyBytes "messages" in
  if negb (Exists messages) || negb (IsArray messages) then (bodyBytes, false, None)
  else
    let messagesArray := Array messages in
    if bool_decide (length messagesArray = 0) then (bodyBytes, false, None)
    else
      match lastAssistant messagesArray (length messagesArray) with
      | None => (bodyBytes, false, None)
      | Some (lastAssistantIdx, lastAssistantMsg) =>
        let content := gjson_Get lastAssistantMsg "content" in
        if negb (Exists content) || negb (IsArray content) then (bodyBytes, false, None)
        else
          let toolUseIDs := ForEach (Array content) collectToolUse [] in
          if bool_decide (length toolUseIDs = 0) then (bodyBytes, false, None)
          else if hasToolResultAfter messagesArray lastAssistantIdx
          then (bodyBytes, false, None)
          else
            let newIdx := length messagesArray in
            match sjson_Set bodyBytes "messages" newIdx (newUserMsg toolUseIDs) with
            | inl err => (bodyBytes, false, Some ("补充 tool_result 失败: " +:+ err))
            | inr modified => (modified, true, None)
            end
      end.

(** ** Vocabulary of the specification for the repair *)

(** Step 4: the ids of the items with type tool_use and a non-empty id, in
    order. *)
Definition danglingIds (items : list json) : list string :=
  omap (λ item,
          if bool_decide (field item "type" = "tool_use" ∧ field item "id" ≠ "")
          then Some (field item "id") else None)
       items.

(** Step 2: [msg], at index [idx], is the last message with role
    assistant. *)
Definition isLastAssistant (messages : list json) (idx : nat) (msg : json) : Prop :=
  messages !! idx = Some msg
  ∧ field msg "role" = "assistant"
  ∧ ∀ j later, idx < j → messages !! j = Some later → field later "role" ≠ "assistant".

(** Step 5: the message right after index [idx] exists, has role user, has
    an array content, and one of its items has type tool_result. *)
Definition answered (messages : list json) (idx : nat) : Prop :=
  ∃ next items item,
    messages !! (idx + 1) = Some next
    ∧ field next "role" = "user"
    ∧ gjson_Get next "content" = Some (JArray items)
    ∧ item ∈ items
    ∧ field item "type" = "tool_result".

End ToolUseRepair.

(** [out] is [body] with [msg] appended at the end of the messages array
    and nothing else changed. *)
Definition appendsMessage (body out msg : json) : Prop :=
  ∃ before messages after,
    body = JObject (before ++ ("messages", JArray messages) :: after)
    ∧ member "messages" before = None
    ∧ out = JObject (before ++ ("messages", JArray (messages ++ [msg])) :: after).

(* ===================================================================== *)
(** * Grouping by level *)
(* ===================================================================== *)

Record LevelGroup (T : Type) := mkLevelGroup {
  Groups : gmap Z (list T);
  SortedLevels : list Z
}.
Arguments mkLevelGroup {T} _ _.
Arguments Groups {T} _.
Arguments SortedLevels {T} _.

(** [groups[level]] on a [map[int][]T]: the nil slice when absent. *)
Definition groupAt {T} (groups : gmap Z (list T)) (level : Z) : list T :=
  default [] (groups !! level).

(** [level := p.GetLevel(); groups[level] = append(groups[level], p)] *)
Definition GroupByLevel_step {T} `{ProviderLike T} (groups : gmap Z (list T)) (p : T)
    : gmap Z (list T) :=
  let level := GetLevel p in
  <[level := groupAt groups level ++ [p]]> groups.

(** The keys are collected in the iteration order of the map and then put
    through [sort.Ints]. *)
Definition GroupByLevel {T} `{ProviderLike T} (providers : list T) : LevelGroup T :=
  let groups := foldl GroupByLevel_step ∅ providers in
  let levels := (map_to_list groups).*1 in
  mkLevelGroup groups (merge_sort Z.le levels).

(** The groups laid out one after the other, in the order of
    [SortedLevels]. *)
Definition flatten {T} (lg : LevelGroup T) : list T :=
  concat (groupAt (Groups lg) <$> SortedLevels lg).

(* ===================================================================== *)
(** * Runs of several calls *)
(* ===================================================================== *)

(** The state left by [k] successive [Reorder] calls with the same
    arguments. *)
Definition stateAfter {T} (k : nat) (rrs : RoundRobinState) (platform : string)
    (level : Z) (providers : list T) (getName : T → string) : RoundRobinState :=
  Nat.iter k (λ s, (Reorder s platform level providers getName).2) rrs.

(** One recorded attempt: provider, duration, error. *)
Definition Attempt : Type := string * Z * option error.

(** [RecordAttempt] called once per attempt, in order. *)
Definition RecordAttempts (rc : RetryContext) (attempts : list Attempt) : RetryContext :=
  foldl (λ rc a, RecordAttempt rc a.1.1 a.1.2 a.2) rc attempts.

(** The last non-nil error of a run of attempts, if there is one. *)
Definition lastFailure (attempts : list Attempt) : option error :=
  last (omap (λ a : Attempt, a.2) attempts).

(** The body after [k] successive passes of [FixIncompleteToolUse]. *)
Definition repairTimes `{GjsonText} (k : nat) (body : json) : json :=
  Nat.iter k (λ b, (FixIncompleteToolUse b).1.1) body.

(** The length of the messages array of a body. *)
Definition messageCount (body : json) : nat :=
  length (Array (gjson_Get body "messages")).

(* ===================================================================== *)
(** * Sample bodies *)
(* ===================================================================== *)

(** An assistant message with a text item and two tool_use items. *)
Definition sampleAssistant : json :=
  JObject [("role", JString "assistant");
           ("content",
            JArray [JObject [("type", JString "text"); ("text", JString "running")];
                    JObject [("type", JString "tool_use"); ("id", JString "T1")];
                    JObject [("type", JString "tool_use"); ("id", JString "T2")]])].

(** A user message with plain text content. *)
Definition sampleUserText : json :=
  JObject [("role", JString "user"); ("content", JString "hi")].

(** Scenario 4 of the specification: the assistant message is the last
    one. *)
Definition sampleTrailing : json :=
  JObject [("model", JString "m");
           ("messages", JArray [sampleUserText; sampleAssistant]);
           ("stream", JBool true)].

(** The assistant message is followed by a user message that holds no
    tool_result. *)
Definition sampleFollowed : json :=
  JObject [("messages", JArray [sampleAssistant; sampleUserText])].

(* ===================================================================== *)
(** * Vocabulary of the specification *)
(* ===================================================================== *)

(** Step 1 of the filter pipeline: enabled and valid configuration. *)
Definition passesBasic {T} `{ProviderLike T} (p : T) : bool :=
  IsEnabled p && HasValidConfig p.

(** Steps 2 to 4 of the filter pipeline for [Provider]. *)
Definition passesHooks (kind requestedModel : string)
    (blacklistChecker : option BlacklistChecker)
    (modelChecker : option ModelChecker)
    (configValidator : option ConfigValidator) (p : Provider) : bool :=
  negb (configRejects configValidator p)
  && negb (modelRejects modelChecker requestedModel p)
  && negb (blacklisted blacklistChecker kind (Name p)).

(** The number of providers of the input that are not in [Active]. *)
Definition excludedCount {T} (providers : list T) (result : FilterResult T) : nat :=
  length providers - length (Active result).

(* ===================================================================== *)
(** * Properties of the provider filter *)
(* ===================================================================== *)

Section FilterFacts.

Context (kind requestedModel : string)
        (blacklistChecker : option BlacklistChecker)
        (modelChecker : option ModelChecker)
        (configValidator : option ConfigValidator).

Let step := FilterProviders_step kind requestedModel blacklistChecker
              modelChecker configValidator.
Let hooks := passesHooks kind requestedModel blacklistChecker
               modelChecker configValidator.

(** The loop, started from any intermediate result. *)
Lemma FilterProviders_loop (acc : FilterResult Provider) (providers : list Provider) :
  foldl step acc providers =
    mkFilterResult
      (Active acc ++ filter (λ p, passesBasic p && hooks p = true) providers)
      (SkippedCount acc
       + length (filter (λ p, passesBasic p && negb (hooks p) = true) providers)).
Proof.
  revert acc. induction providers as [|p providers IH]; intros acc; simpl.
  - destruct acc; simpl. by rewrite app_nil_r, Nat.add_0_r.
  - rewrite IH. clear IH. subst step hooks.
    unfold FilterProviders_step, passesHooks, passesBasic.
    rewrite !filter_cons.
    destruct (IsEnabled p), (HasValidConfig p); simpl; try done;
      destruct (configRejects configValidator p); simpl;
      try (f_equal; lia);
      destruct (modelRejects modelChecker requestedModel p); simpl;
      try (f_equal; lia);
      destruct (blacklisted blacklistChecker kind (Name p)); simpl;
      try (f_equal; lia).
    by rewrite <-app_assoc.
Qed.

Lemma FilterProviders_Active (providers : list Provider) :
  Active (FilterProviders providers kind requestedModel blacklistChecker
            modelChecker configValidator)
  = filter (λ p, passesBasic p && hooks p = true) providers.
Proof. unfold FilterProviders. fold step. by rewrite FilterProviders_loop. Qed.

Lemma FilterProviders_SkippedCount (providers : list Provider) :
  SkippedCount (FilterProviders providers kind requestedModel blacklistChecker
                  modelChecker configValidator)
  = length (filter (λ p, passesBasic p && negb (hooks p) = true) providers).
Proof. unfold FilterProviders. fold step. by rewrite FilterProviders_loop. Qed.

(** Among the providers that pass step 1, each one is either active or
    counted. *)
Lemma basic_split (providers : list Provider) :
  length (filter (λ p, passesBasic p = true) providers)
  = length (filter (λ p, passesBasic p && hooks p = true) providers)
    + length (filter (λ p, passesBasic p && negb (hooks p) = true) providers).
Proof.
  induction providers as [|p providers IH]; [done|].
  rewrite !filter_cons.
  destruct (passesBasic p), (hooks p); simpl in *; lia.
Qed.

End FilterFacts.

Lemma FilterGeminiProviders_loop (blacklistChecker : option BlacklistChecker)
    (acc : FilterResult GeminiProvider) (providers : list GeminiProvider) :
  foldl (FilterGeminiProviders_step blacklistChecker) acc providers =
    mkFilterResult
      (Active acc ++
       filter (λ p, passesBasic p
                    && negb (blacklisted blacklistChecker "gemini" (GeminiName p)) = true)
              providers)
      (SkippedCount acc).
Proof.
  revert acc. induction providers as [|p providers IH]; intros acc; simpl.
  - destruct acc; simpl. by rewrite app_nil_r.
  - rewrite IH. clear IH. unfold FilterGeminiProviders_step, passesBasic.
    rewrite filter_cons.
    destruct (IsEnabled p), (HasValidConfig p); simpl; try done.
    destruct (blacklisted blacklistChecker "gemini" (GeminiName p)); simpl; [done|].
    by rewrite <-app_assoc.
Qed.

(** The gemini filter never counts: its [SkippedCount] stays zero. *)
Lemma FilterGeminiProviders_SkippedCount providers blacklistChecker :
  SkippedCount (FilterGeminiProviders providers blacklistChecker) = 0.
Proof. unfold FilterGeminiProviders. by rewrite FilterGeminiProviders_loop. Qed.

(** C4. A provider name that the supplied blacklist checker reports as
    blacklisted for a kind never appears in the [Active] list that
    [FilterProviders] returns for that kind, and a name blacklisted for kind
    gemini never appears in the [Active] list of [FilterGeminiProviders]. *)
Theorem blacklisted_never_active
    (check : BlacklistChecker) (kind name : string)
    (Hblack : (check kind name).1 = true) :
  (∀ providers requestedModel modelChecker configValidator p,
      p ∈ Active (FilterProviders providers kind requestedModel (Some check)
                    modelChecker configValidator) →
      Name p ≠ name)
  ∧ (kind = "gemini" →
     ∀ providers p,
       p ∈ Active (FilterGeminiProviders providers (Some check)) →
       GeminiName p ≠ name).
Proof.
  split.
  - intros providers requestedModel modelChecker configValidator p.
    rewrite FilterProviders_Active, list_elem_of_filter.
    intros [Hp _] Hname. subst name. unfold passesHooks in Hp. simpl in Hp.
    rewrite Hblack in Hp. simpl in Hp.
    by rewrite !andb_false_r in Hp.
  - intros -> providers p. unfold FilterGeminiProviders.
    rewrite FilterGeminiProviders_loop. simpl.
    rewrite list_elem_of_filter. intros [Hp _] Hname. subst name. simpl in Hp.
    rewrite Hblack in Hp. by rewrite andb_false_r in Hp.
Qed.

(** C8, as the code has it.  [SkippedCount] returned by [FilterProviders]
    is the number of providers that pass the enabled/valid-config step and
    are then excluded by the config validator, the model check or the
    blacklist; together with [Active] they make up the providers that pass
    the first step.  Providers dropped by the first step are not counted. *)
Theorem SkippedCount_counts_hook_rejections
    (providers : list Provider) (kind requestedModel : string)
    (blacklistChecker : option BlacklistChecker)
    (modelChecker : option ModelChecker)
    (configValidator : option ConfigValidator) :
  let result := FilterProviders providers kind requestedModel blacklistChecker
                  modelChecker configValidator in
  let hooks := passesHooks kind requestedModel blacklistChecker modelChecker
                 configValidator in
  SkippedCount result
    = length (filter (λ p, passesBasic p = true ∧ hooks p = false) providers)
  ∧ SkippedCount result + length (Active result)
    = length (filter (λ p, passesBasic p = true) providers)
  ∧ (∀ p, p ∈ Active result ↔ p ∈ providers ∧ passesBasic p = true ∧ hooks p = true).
Proof.
  intros result hooks. subst result.
  rewrite FilterProviders_SkippedCount, FilterProviders_Active.
  fold hooks. split_and!.
  - f_equal. apply list_filter_iff. intros p.
    destruct (passesBasic p), (hooks p); simpl; intuition congruence.
  - rewrite (basic_split kind requestedModel blacklistChecker modelChecker
               configValidator). fold hooks. lia.
  - intros p. rewrite list_elem_of_filter.
    destruct (passesBasic p), (hooks p); simpl; intuition congruence.
Qed.

(** C8 as stated fails: a disabled provider is left out of [Active] by the
    first filter step and is not counted. *)
Lemma SkippedCount_ignores_disabled :
  let providers := [mkProvider "A" 1 false "https://a.example" "key"] in
  let result := FilterProviders providers "claude" "" None None None in
  Active result = [] ∧ SkippedCount result = 0 ∧ excludedCount providers result = 1
  ∧ SkippedCount result ≠ excludedCount providers result.
Proof. vm_compute. split_and!; done. Qed.

(** The gemini filter does not count the provider it drops for being
    blacklisted either. *)
Lemma Gemini_SkippedCount_ignores_blacklisted :
  let check : BlacklistChecker := λ _ name, (bool_decide (name = "G"), 60%Z) in
  let providers := [mkGeminiProvider "G" 1 true "https://g.example"] in
  let result := FilterGeminiProviders providers (Some check) in
  Active result = [] ∧ SkippedCount result = 0 ∧ excludedCount providers result = 1.
Proof. vm_compute. done. Qed.

(** Scenario 3 of the specification: A is blacklisted, the providers are
    [A, B], only B is offered. *)
Lemma blacklisted_never_active_witness :
  let check : BlacklistChecker := λ _ name, (bool_decide (name = "A"), 60%Z) in
  let A := mkProvider "A" 1 true "https://a.example" "ka" in
  let B := mkProvider "B" 1 true "https://b.example" "kb" in
  let result := FilterProviders [A; B] "claude" "" (Some check) None None in
  Active result = [B] ∧ ∀ p, p ∈ Active result → Name p ≠ "A".
Proof.
  intros check A B result. split; [reflexivity|].
  apply (proj1 (blacklisted_never_active check "claude" "A" eq_refl)).
Defined.

(* ===================================================================== *)
(** * Properties of the round-robin reorder *)
(* ===================================================================== *)

Section ReorderFacts.

Context {T : Type} (getName : T → string) (platform : string) (level : Z).

Let key := rrKey platform level.

Lemma mapGet_setLastStart (rrs : RoundRobinState) (name : string) :
  mapGet (lastStart (setLastStart rrs key name)) key = name.
Proof. unfold mapGet, setLastStart. simpl. by rewrite lookup_insert_eq. Qed.

Lemma setLastStart_twice (rrs : RoundRobinState) (a b : string) :
  setLastStart (setLastStart rrs key a) key b = setLastStart rrs key b.
Proof. unfold setLastStart. simpl. by rewrite insert_insert_eq. Qed.

(** Writing back the non-empty name that is already stored changes
    nothing. *)
Lemma setLastStart_same (rrs : RoundRobinState) :
  mapGet (lastStart rrs) key ≠ "" →
  setLastStart rrs key (mapGet (lastStart rrs) key) = rrs.
Proof.
  destruct rrs as [m]. unfold setLastStart, mapGet. simpl.
  destruct (m !! key) as [v|] eqn:Hm; simpl; [|done].
  intros _. by rewrite insert_id.
Qed.

(** The index arithmetic of the loop is the rotation of the list. *)
Lemma ringFrom_rotate (zero : T) (lastIdx : nat) (providers : list T) :
  ringFrom zero lastIdx providers = rotate (lastIdx + 1) providers.
Proof.
  apply list_eq. intros k. unfold ringFrom.
  rewrite list_lookup_fmap.
  destruct (decide (k < length providers)) as [Hk|Hk].
  - rewrite lookup_seq_lt by done. simpl.
    rewrite lookup_rotate_r by done. unfold rotate_nat_add.
    rewrite <-Nat2Z.inj_add, <-Nat2Z.inj_mod, Nat2Z.id.
    rewrite nth_lookup.
    destruct (lookup_lt_is_Some_2 providers ((lastIdx + 1 + k) `mod` length providers))
      as [x Hx]; [apply Nat.mod_upper_bound; lia|].
    by rewrite Hx.
  - rewrite (lookup_ge_None_2 (seq _ _)) by (rewrite length_seq; lia).
    simpl. symmetry. apply lookup_ge_None_2. rewrite length_rotate. lia.
Qed.

Lemma rotate_head (providers : list T) (i : nat) :
  0 < length providers →
  head (rotate (i + 1) providers) = providers !! ((i + 1) `mod` length providers).
Proof.
  intros Hlen. rewrite head_lookup, lookup_rotate_r by done.
  unfold rotate_nat_add.
  by rewrite <-Nat2Z.inj_add, <-Nat2Z.inj_mod, Nat2Z.id, Nat.add_0_r.
Qed.

(** Lists of length at most one come back untouched and nothing is
    recorded. *)
Lemma Reorder_short (rrs : RoundRobinState) (providers : list T) :
  length providers ≤ 1 →
  Reorder rrs platform level providers getName = (providers, rrs).
Proof. intros Hlen. unfold Reorder. by rewrite bool_decide_eq_true_2. Qed.

(** No usable history: the input order, and the first name is recorded. *)
Lemma Reorder_cold (rrs : RoundRobinState) (providers : list T) (first : T) :
  2 ≤ length providers →
  head providers = Some first →
  mapGet (lastStart rrs) key = ""
  ∨ Forall (λ p, getName p ≠ mapGet (lastStart rrs) key) providers →
  Reorder rrs platform level providers getName
  = (providers, setLastStart rrs key (getName first)).
Proof.
  intros Hlen Hfirst Hlast. unfold Reorder.
  rewrite bool_decide_eq_false_2 by lia.
  destruct providers as [|p rest]; [done|].
  injection Hfirst as ->. cbv beta iota zeta.
  fold key. case_bool_decide as Hempty; [done|].
  destruct Hlast as [?|Hnone]; [done|].
  apply (list_find_None (λ p, getName p = mapGet (lastStart rrs) key)) in Hnone.
  by rewrite Hnone.
Qed.

(** The stored name is found: the list is rotated to start right after
    its first occurrence, and the name of the new first element is
    recorded. *)
Lemma Reorder_hot (rrs : RoundRobinState) (providers : list T) (i : nat) (p next : T) :
  2 ≤ length providers →
  mapGet (lastStart rrs) key ≠ "" →
  list_find (λ q, getName q = mapGet (lastStart rrs) key) providers = Some (i, p) →
  providers !! ((i + 1) `mod` length providers) = Some next →
  Reorder rrs platform level providers getName
  = (rotate (i + 1) providers, setLastStart rrs key (getName next)).
Proof.
  intros Hlen Hlast Hfind Hnext. unfold Reorder.
  rewrite bool_decide_eq_false_2 by lia.
  destruct providers as [|first rest] eqn:Hp; [simpl in Hlen; lia|].
  rewrite <-Hp in *. fold key.
  rewrite bool_decide_eq_false_2 by done.
  rewrite Hfind, ringFrom_rotate, setLastStart_twice.
  rewrite nth_lookup, <-head_lookup, rotate_head by lia.
  by rewrite Hnext.
Qed.

(** Every call falls in one of the three cases above. *)
Lemma Reorder_cases (rrs : RoundRobinState) (providers : list T) :
  (length providers ≤ 1
   ∧ Reorder rrs platform level providers getName = (providers, rrs))
  ∨ (∃ first, 2 ≤ length providers ∧ head providers = Some first
      ∧ Reorder rrs platform level providers getName
        = (providers, setLastStart rrs key (getName first)))
  ∨ (∃ i p next, 2 ≤ length providers
      ∧ mapGet (lastStart rrs) key ≠ ""
      ∧ list_find (λ q, getName q = mapGet (lastStart rrs) key) providers = Some (i, p)
      ∧ providers !! ((i + 1) `mod` length providers) = Some next
      ∧ Reorder rrs platform level providers getName
        = (rotate (i + 1) providers, setLastStart rrs key (getName next))).
Proof.
  destruct (decide (length providers ≤ 1)) as [Hshort|Hlong].
  { left. split; [done|]. by apply Reorder_short. }
  right.
  destruct providers as [|first rest] eqn:Hp; [simpl in Hlong; lia|].
  rewrite <-Hp in *.
  assert (head providers = Some first) as Hfirst by by rewrite Hp.
  destruct (decide (mapGet (lastStart rrs) key = "")) as [Hempty|Hlast].
  { left. exists first. split_and!; [lia|done|]. apply Reorder_cold; [lia|done|by left]. }
  destruct (list_find (λ q, getName q = mapGet (lastStart rrs) key) providers)
    as [[i p]|] eqn:Hfind.
  - right.
    destruct (lookup_lt_is_Some_2 providers ((i + 1) `mod` length providers))
      as [next Hnext]; [apply Nat.mod_upper_bound; lia|].
    exists i, p, next. split_and!; [lia|done..|].
    by apply (Reorder_hot _ _ i p next); [lia|..].
  - left. exists first. split_and!; [lia|done|].
    apply Reorder_cold; [lia|done|]. right. by apply list_find_None in Hfind.
Qed.

End ReorderFacts.

Section ReorderClaims.

Context {T : Type} (getName : T → string) (platform : string) (level : Z).

Let key := rrKey platform level.

Lemma rotate_Permutation (n : nat) (providers : list T) : rotate n providers ≡ₚ providers.
Proof. unfold rotate. by rewrite Permutation_app_comm, take_drop. Qed.

Lemma lookup_rotate_plain (i k : nat) (providers : list T) :
  k < length providers →
  rotate (i + 1) providers !! k = providers !! ((i + 1 + k) `mod` length providers).
Proof.
  intros Hk. rewrite lookup_rotate_r by done. unfold rotate_nat_add.
  by rewrite <-Nat2Z.inj_add, <-Nat2Z.inj_mod, Nat2Z.id.
Qed.

(** With pairwise distinct names, a name determines its position. *)
Lemma unique_name_index (providers : list T) (i j : nat) (p q : T) :
  NoDup (getName <$> providers) →
  providers !! i = Some p → providers !! j = Some q →
  getName p = getName q → i = j.
Proof.
  intros Hnodup Hi Hj Heq.
  apply (NoDup_lookup _ i j (getName p) Hnodup); rewrite list_lookup_fmap.
  - by rewrite Hi.
  - by rewrite Hj, Heq.
Qed.

Lemma next_index_differs (j n : nat) : 2 ≤ n → j < n → (j + 1) `mod` n ≠ j.
Proof.
  intros Hn Hj. destruct (decide (j + 1 < n)) as [Hlt|Hge].
  - rewrite Nat.mod_small by done. lia.
  - replace (j + 1) with n by lia. rewrite Nat.Div0.mod_same. lia.
Qed.

(** When the stored name is the non-empty name of the provider at
    position [j] and names are pairwise distinct, the next call starts at
    position [j + 1]. *)
Lemma Reorder_after (rrs : RoundRobinState) (providers : list T) (j : nat) (a next : T) :
  2 ≤ length providers →
  NoDup (getName <$> providers) →
  providers !! j = Some a →
  getName a ≠ "" →
  mapGet (lastStart rrs) key = getName a →
  providers !! ((j + 1) `mod` length providers) = Some next →
  Reorder rrs platform level providers getName
  = (rotate (j + 1) providers, setLastStart rrs key (getName next)).
Proof.
  intros Hlen Hnodup Hj Hname Hlast Hnext.
  apply (Reorder_hot getName platform level rrs providers j a next); fold key;
    [done|by rewrite Hlast| |done].
  apply list_find_Some. split_and!; [done|done|].
  intros j' q Hq Hlt Heq.
  assert (j' = j); [|lia].
  apply (unique_name_index providers j' j q a); [done..|]. by rewrite Heq.
Qed.

End ReorderClaims.

(** C2. Whatever the platform, the level and the stored state, the list
    that [Reorder] returns is a permutation of its input: same length, same
    elements with the same multiplicities. *)
Theorem Reorder_permutation {T : Type} (rrs : RoundRobinState) (platform : string)
    (level : Z) (providers : list T) (getName : T → string) :
  (Reorder rrs platform level providers getName).1 ≡ₚ providers
  ∧ length (Reorder rrs platform level providers getName).1 = length providers.
Proof.
  assert ((Reorder rrs platform level providers getName).1 ≡ₚ providers) as Hperm.
  { destruct (Reorder_cases getName platform level rrs providers)
      as [[_ ->]|[(first & _ & _ & ->)|(i & p & next & _ & _ & _ & _ & ->)]];
      simpl; [done..|].
    apply rotate_Permutation. }
  split; [done|]. by rewrite Hperm.
Qed.

(** C7, as the code has it.  For a provider list with at least two
    elements whose names are pairwise distinct and non-empty, two successive
    [Reorder] calls with the same inputs return lists whose first elements
    differ. *)
Theorem Reorder_advances {T : Type} (getName : T → string) (platform : string)
    (level : Z) (rrs : RoundRobinState) (providers : list T)
    (Hlen : 2 ≤ length providers)
    (Hdistinct : NoDup (getName <$> providers))
    (Hnamed : Forall (λ p, getName p ≠ "") providers) :
  let first := Reorder rrs platform level providers getName in
  let second := Reorder first.2 platform level providers getName in
  ∃ a b, head first.1 = Some a ∧ head second.1 = Some b ∧ a ≠ b.
Proof.
  intros first second.
  assert (∃ j a, providers !! j = Some a ∧ head first.1 = Some a
                 ∧ first.2 = setLastStart rrs (rrKey platform level) (getName a))
    as (j & a & Hj & Hhead & Hstate).
  { subst first second.
    destruct (Reorder_cases getName platform level rrs providers)
      as [[Hshort _]|[(p0 & _ & Hp0 & ->)|(i & p & next & _ & _ & _ & Hnext & ->)]];
      [lia| |]; simpl.
    - exists 0, p0. by rewrite <-head_lookup.
    - exists ((i + 1) `mod` length providers), next.
      split_and!; [done| |done]. rewrite rotate_head by lia. done. }
  assert (j < length providers) as Hjlt by by eapply lookup_lt_Some.
  destruct (lookup_lt_is_Some_2 providers ((j + 1) `mod` length providers))
    as [b Hb]; [apply Nat.mod_upper_bound; lia|].
  assert (getName a ≠ "") as Hname.
  { rewrite Forall_forall in Hnamed. apply Hnamed. by eapply list_elem_of_lookup_2. }
  exists a, b. split_and!; [done| |].
  - subst second. rewrite Hstate.
    rewrite (Reorder_after getName platform level _ providers j a b);
      [|done|done|done|done|by rewrite mapGet_setLastStart|done].
    simpl. by rewrite rotate_head by lia.
  - intros <-.
    apply (next_index_differs j (length providers)); [done..|].
    by apply (unique_name_index getName providers _ _ a a).
Qed.

(** C7 as stated fails: the empty string is the marker of a key without
    history, so a list headed by a provider with an empty name is returned
    in the same order by both calls. *)
Lemma Reorder_stalls_on_empty_name :
  let providers := [""; "B"] in
  let first := Reorder NewRoundRobinState "claude" 1 providers id in
  let second := Reorder first.2 "claude" 1 providers id in
  first.1 = [""; "B"] ∧ second.1 = [""; "B"] ∧ head first.1 = head second.1.
Proof. vm_compute. done. Qed.

(** A repeated name stalls the rotation as well: the position is recovered
    by name and the search stops at the first match, so from the second call
    on the same provider comes first. *)
Lemma Reorder_stalls_on_repeated_name :
  let providers := [("A", 1); ("A", 2)] in
  let first := Reorder NewRoundRobinState "claude" 1 providers fst in
  let second := Reorder first.2 "claude" 1 providers fst in
  let third := Reorder second.2 "claude" 1 providers fst in
  second.1 = [("A", 2); ("A", 1)] ∧ third.1 = [("A", 2); ("A", 1)].
Proof. vm_compute. done. Qed.

Lemma Reorder_advances_witness :
  let providers := ["A"; "B"] in
  let first := Reorder NewRoundRobinState "claude" 1 providers id in
  let second := Reorder first.2 "claude" 1 providers id in
  ∃ a b, head first.1 = Some a ∧ head second.1 = Some b ∧ a ≠ b.
Proof.
  apply (Reorder_advances id "claude" 1 NewRoundRobinState ["A"; "B"]).
  - simpl. lia.
  - simpl. apply NoDup_cons. split; [|apply NoDup_singleton].
    rewrite list_elem_of_singleton. discriminate.
  - repeat constructor; discriminate.
Defined.

(** C1, as the code has it.  For a key (platform, level):
    - a list of length at most one is returned unchanged and nothing is
      recorded, whatever the state holds;
    - with an empty stored last-start and at least two providers, [Reorder]
      returns the input order and records the name of the first provider;
    - when the stored last-start is non-empty and first occurs at index [i]
      of the input of length [n], [Reorder] returns
      providers[(i+1) mod n], ..., providers[i] and records the name of the
      new first element;
    - so, from the empty state and for [A, B, C] with pairwise distinct,
      non-empty names, four successive calls return [A,B,C], [B,C,A],
      [C,A,B], [A,B,C], leaving A, B, C as the stored name after the first
      three. *)
Theorem Reorder_round_robin {T : Type} (getName : T → string) (platform : string)
    (level : Z) :
  let key := rrKey platform level in
  (∀ rrs providers,
     length providers ≤ 1 →
     Reorder rrs platform level providers getName = (providers, rrs))
  ∧ (∀ rrs providers first,
     2 ≤ length providers →
     head providers = Some first →
     mapGet (lastStart rrs) key = "" →
     Reorder rrs platform level providers getName
     = (providers, setLastStart rrs key (getName first)))
  ∧ (∀ rrs providers i p,
     mapGet (lastStart rrs) key ≠ "" →
     providers !! i = Some p →
     getName p = mapGet (lastStart rrs) key →
     (∀ j q, j < i → providers !! j = Some q → getName q ≠ mapGet (lastStart rrs) key) →
     ∃ out next,
       Reorder rrs platform level providers getName
       = (out, setLastStart rrs key (getName next))
       ∧ head out = Some next
       ∧ length out = length providers
       ∧ ∀ k, k < length providers →
              out !! k = providers !! ((i + 1 + k) `mod` length providers))
  ∧ (∀ A B C,
     getName A ≠ "" → getName B ≠ "" → getName C ≠ "" →
     getName A ≠ getName B → getName A ≠ getName C → getName B ≠ getName C →
     let call rrs := Reorder rrs platform level [A; B; C] getName in
     let r1 := call NewRoundRobinState in
     let r2 := call r1.2 in
     let r3 := call r2.2 in
     let r4 := call r3.2 in
     r1.1 = [A; B; C] ∧ mapGet (lastStart r1.2) key = getName A
     ∧ r2.1 = [B; C; A] ∧ mapGet (lastStart r2.2) key = getName B
     ∧ r3.1 = [C; A; B] ∧ mapGet (lastStart r3.2) key = getName C
     ∧ r4.1 = [A; B; C]).
Proof.
  intros key. split_and!.
  - intros rrs providers Hshort. by apply Reorder_short.
  - intros rrs providers first Hlen Hfirst Hlast.
    apply Reorder_cold; [done..|by left].
  - intros rrs providers i p Hlast Hi Hp Hfirst.
    assert (i < length providers) as Hilt by by eapply lookup_lt_Some.
    destruct (decide (length providers ≤ 1)) as [Hshort|Hlong].
    + assert (i = 0) as -> by lia.
      exists providers, p. split_and!.
      * rewrite Reorder_short by done. f_equal.
        rewrite Hp. symmetry. by apply setLastStart_same.
      * by rewrite head_lookup.
      * done.
      * intros k Hk. replace (length providers) with 1 by lia.
        rewrite Nat.mod_1_r. by replace k with 0 by lia.
    + destruct (lookup_lt_is_Some_2 providers ((i + 1) `mod` length providers))
        as [next Hnext]; [apply Nat.mod_upper_bound; lia|].
      exists (rotate (i + 1) providers), next. split_and!.
      * apply (Reorder_hot getName platform level rrs providers i p next);
          [lia|done| |done].
        apply list_find_Some. split_and!; [done|done|].
        intros j q Hq Hlt. by apply (Hfirst j q).
      * by rewrite rotate_head by lia.
      * apply length_rotate.
      * intros k Hk. by apply lookup_rotate_plain.
  - intros A B C HA HB HC HAB HAC HBC call r1 r2 r3 r4.
    assert (NoDup (getName <$> [A; B; C])) as Hnodup.
    { simpl. apply NoDup_cons. split.
      + rewrite !elem_of_cons, elem_of_nil. tauto.
      + apply NoDup_cons. split; [|apply NoDup_singleton].
        by rewrite list_elem_of_singleton. }
    assert (r1 = ([A; B; C], setLastStart NewRoundRobinState key (getName A))) as E1.
    { subst r1 call. simpl. apply Reorder_cold; [simpl; lia|done|by left]. }
    assert (r2 = ([B; C; A], setLastStart r1.2 key (getName B))) as E2.
    { subst r2 call. simpl.
      apply (Reorder_after getName platform level _ [A; B; C] 0 A B);
        [simpl; lia|done..| |done].
      rewrite E1. apply mapGet_setLastStart. }
    assert (r3 = ([C; A; B], setLastStart r2.2 key (getName C))) as E3.
    { subst r3 call. simpl.
      apply (Reorder_after getName platform level _ [A; B; C] 1 B C);
        [simpl; lia|done..| |done].
      rewrite E2. apply mapGet_setLastStart. }
    assert (r4 = ([A; B; C], setLastStart r3.2 key (getName A))) as E4.
    { subst r4 call. simpl.
      apply (Reorder_after getName platform level _ [A; B; C] 2 C A);
        [simpl; lia|done..| |done].
      rewrite E3. apply mapGet_setLastStart. }
    split_and!.
    + by rewrite E1.
    + rewrite E1. apply mapGet_setLastStart.
    + by rewrite E2.
    + rewrite E2. apply mapGet_setLastStart.
    + by rewrite E3.
    + rewrite E3. apply mapGet_setLastStart.
    + by rewrite E4.
Qed.

(** C1 as stated fails on a one-element list: the length test returns
    before anything is recorded, so the key stays without a last-start. *)
Lemma Reorder_singleton_records_nothing :
  let result := Reorder NewRoundRobinState "claude" 1 ["A"] id in
  result.1 = ["A"]
  ∧ mapGet (lastStart result.2) (rrKey "claude" 1) = ""
  ∧ mapGet (lastStart result.2) (rrKey "claude" 1) ≠ id "A".
Proof. vm_compute. split_and!; done. Qed.

(** Scenario 1 of the specification, run on the names themselves. *)
Lemma Reorder_round_robin_witness :
  let call rrs := Reorder rrs "claude" 1 ["A"; "B"; "C"] id in
  let r1 := call NewRoundRobinState in
  let r2 := call r1.2 in
  let r3 := call r2.2 in
  let r4 := call r3.2 in
  r1.1 = ["A"; "B"; "C"] ∧ mapGet (lastStart r1.2) "claude:1" = "A"
  ∧ r2.1 = ["B"; "C"; "A"] ∧ mapGet (lastStart r2.2) "claude:1" = "B"
  ∧ r3.1 = ["C"; "A"; "B"] ∧ mapGet (lastStart r3.2) "claude:1" = "C"
  ∧ r4.1 = ["A"; "B"; "C"].
Proof.
  apply (proj2 (proj2 (proj2 (Reorder_round_robin id "claude" 1))) "A" "B" "C");
    discriminate.
Defined.

(* ===================================================================== *)
(** * Properties of the retry bookkeeping and of the failure response *)
(* ===================================================================== *)

Module GoIntFacts.
Import GoInt.

Lemma wrap_small z : (min_int ≤ z ≤ max_int)%Z → wrap z = z.
Proof.
  unfold min_int, max_int, wrap. intros Hz.
  rewrite Z.mod_small by lia. lia.
Qed.

Lemma incr_below_max z : (min_int ≤ z < max_int)%Z → incr z = (z + 1)%Z.
Proof.
  unfold incr. intros Hz. apply wrap_small. unfold min_int, max_int in *. lia.
Qed.

Lemma incr_max : incr max_int = min_int.
Proof. reflexivity. Qed.

End GoIntFacts.

(** C10, as the code has it.  [RecordAttempt] raises [TotalAttempts] by
    exactly one as long as it is below the largest [int], sets
    [LastProvider] and [LastDuration] to the arguments, replaces
    [LastError] only by a non-nil error and keeps the recorded [LastError]
    when the error is nil; the two configuration fields are untouched. *)
Theorem RecordAttempt_frame (rc : RetryContext) (provider : string) (duration : Z)
    (err : option error)
    (Hrange : (GoInt.min_int ≤ TotalAttempts rc < GoInt.max_int)%Z) :
  let rc' := RecordAttempt rc provider duration err in
  TotalAttempts rc' = (TotalAttempts rc + 1)%Z
  ∧ LastProvider rc' = provider
  ∧ LastDuration rc' = duration
  ∧ (∀ e, err = Some e → LastError rc' = Some e)
  ∧ (err = None → LastError rc' = LastError rc)
  ∧ MaxRetryPerProvider rc' = MaxRetryPerProvider rc
  ∧ RetryWaitDuration rc' = RetryWaitDuration rc.
Proof.
  intros rc'. subst rc'. unfold RecordAttempt. simpl.
  split_and!; try done.
  - by apply GoIntFacts.incr_below_max.
  - by intros e ->.
  - by intros ->.
Qed.

(** C10 as stated fails at the largest [int]: the increment wraps around
    to the smallest one. *)
Lemma RecordAttempt_wraps :
  let rc := mkRetryContext 3 0 GoInt.max_int None "A" 0 in
  let rc' := RecordAttempt rc "B" 5 None in
  TotalAttempts rc' = GoInt.min_int
  ∧ TotalAttempts rc' ≠ (TotalAttempts rc + 1)%Z.
Proof. vm_compute. split; [done|discriminate]. Qed.

(** A successful attempt after a failed one keeps the recorded error. *)
Lemma RecordAttempt_frame_witness :
  let rc := RecordAttempt (NewRetryContext 3 1) "A" 7 (Some "boom") in
  let rc' := RecordAttempt rc "B" 9 None in
  TotalAttempts rc' = 2%Z ∧ LastProvider rc' = "B" ∧ LastDuration rc' = 9%Z
  ∧ LastError rc' = Some "boom".
Proof.
  intros rc rc'.
  destruct (RecordAttempt_frame rc "B" 9 None) as (Ht & Hp & Hd & _ & He & _).
  { vm_compute. split; [discriminate|done]. }
  split_and!; [exact Ht|exact Hp|exact Hd|exact (He eq_refl)].
Defined.

(** Reads a member of a map written as a chain of inserts with distinct
    literal keys. *)
Ltac read_member :=
  rewrite ?lookup_insert_ne by done;
  rewrite ?lookup_insert_eq, ?lookup_empty.

(** C9. The failure response carries the error text built from the
    provider name and the error message (the text for an unknown error when
    the error is nil), echoes [lastProvider] and [totalAttempts], and has
    the member mode, with value blacklist_retry, and the member hint exactly
    when [mode] is blacklist. *)
Theorem BuildFailureResponse_shape (totalAttempts : Z) (lastProvider : string)
    (lastError : option error) (mode : string) :
  let response := BuildFailureResponse totalAttempts lastProvider lastError mode in
  let msg := match lastError with Some e => Error e | None => "未知错误" end in
  response !! "error"
    = Some (AString ("所有 Provider 都失败，最后尝试: " +:+ lastProvider +:+ " - " +:+ msg))
  ∧ response !! "lastProvider" = Some (AString lastProvider)
  ∧ response !! "totalAttempts" = Some (AInt totalAttempts)
  ∧ (response !! "mode" = Some (AString "blacklist_retry") ↔ mode = "blacklist")
  ∧ (is_Some (response !! "mode") ↔ mode = "blacklist")
  ∧ (is_Some (response !! "hint") ↔ mode = "blacklist")
  ∧ (∀ k, is_Some (response !! k) →
          k ∈ ["error"; "lastProvider"; "totalAttempts"; "mode"; "hint"]).
Proof.
  intros response msg. subst response msg. unfold BuildFailureResponse.
  case_bool_decide as Hmode.
  - split_and!.
    + by read_member.
    + by read_member.
    + by read_member.
    + by read_member.
    + read_member. split; eauto.
    + read_member. split; eauto.
    + intros k. rewrite !lookup_insert, lookup_empty.
      repeat case_decide; subst; intros Hk; try (by destruct Hk);
        rewrite !elem_of_cons; tauto.
  - split_and!.
    + by read_member.
    + by read_member.
    + by read_member.
    + read_member. split; [done|by intros ?].
    + read_member. split; [by intros []|done].
    + read_member. split; [by intros []|done].
    + intros k. rewrite !lookup_insert, lookup_empty.
      repeat case_decide; subst; intros Hk; try (by destruct Hk);
        rewrite !elem_of_cons; tauto.
Qed.

(* ===================================================================== *)
(** * Properties of the tool-use repair *)
(* ===================================================================== *)

(** The first member with a key splits the member list around it, and
    [setMember] rewrites exactly that member. *)
Lemma member_split (key : string) (members : list (string * json)) (v : json) :
  member key members = Some v →
  ∃ before after,
    members = before ++ (key, v) :: after
    ∧ member key before = None
    ∧ ∀ f, setMember key f members = Some (before ++ (key, f v) :: after).
Proof.
  induction members as [|[k w] rest IH]; simpl; [done|].
  case_bool_decide as Hk.
  - intros [= ->]. subst k. exists [], rest. by split_and!.
  - intros Hrest. destruct (IH Hrest) as (before & after & -> & Hnone & Hset).
    exists ((k, w) :: before), after. split_and!; [done| |].
    + simpl. by rewrite bool_decide_eq_false_2.
    + intros f. by rewrite Hset.
Qed.

Lemma member_app_None (key : string) (before rest : list (string * json)) :
  member key before = None → member key (before ++ rest) = member key rest.
Proof.
  induction before as [|[k w] before IH]; simpl; [done|].
  case_bool_decide; [done|]. apply IH.
Qed.

Lemma member_middle (key : string) (before after : list (string * json)) (v : json) :
  member key before = None →
  member key (before ++ (key, v) :: after) = Some v.
Proof.
  intros Hnone. rewrite member_app_None by done. simpl.
  by rewrite bool_decide_eq_true_2.
Qed.

Lemma member_middle_other (key other : string) (before after : list (string * json))
    (v w : json) :
  other ≠ key →
  member other (before ++ (key, v) :: after) = member other (before ++ (key, w) :: after).
Proof.
  intros Hne. induction before as [|[k u] before IH]; simpl.
  - repeat case_bool_decide; congruence.
  - by rewrite IH.
Qed.

(** Setting the index one past the end appends. *)
Lemma sjson_setIndex_end (items : list json) (value : json) :
  sjson_setIndex items (length items) value = items ++ [value].
Proof.
  unfold sjson_setIndex. rewrite bool_decide_eq_false_2 by lia.
  by rewrite Nat.sub_diag.
Qed.

Lemma sjson_Set_appends (body : json) (messages : list json) (msg : json) :
  gjson_Get body "messages" = Some (JArray messages) →
  ∃ out, sjson_Set body "messages" (length messages) msg = inr out
         ∧ appendsMessage body out msg.
Proof.
  destruct body as [| | | | |members]; try done. simpl. intros Hget.
  destruct (member_split _ _ _ Hget) as (before & after & Hsplit & Hnone & Hset).
  rewrite Hget, Hset, sjson_setIndex_end.
  eexists. split; [done|]. exists before, messages, after.
  split_and!; [by f_equal|done|done].
Qed.

Lemma appendsMessage_messages (body out msg : json) :
  appendsMessage body out msg →
  ∃ messages, gjson_Get body "messages" = Some (JArray messages)
              ∧ gjson_Get out "messages" = Some (JArray (messages ++ [msg])).
Proof.
  intros (before & messages & after & -> & Hnone & ->).
  exists messages. simpl. by rewrite !member_middle.
Qed.

Lemma appendsMessage_other (body out msg : json) (key : string) :
  appendsMessage body out msg → key ≠ "messages" →
  gjson_Get out key = gjson_Get body key.
Proof.
  intros (before & messages & after & -> & Hnone & ->) Hkey. simpl.
  by apply member_middle_other.
Qed.

Section ToolUseFacts.

Context `{GjsonText}.

(** The backward scan finds the last message with role assistant among
    the first [i] messages. *)
Lemma lastAssistant_Some (messages : list json) (i idx : nat) (msg : json) :
  i ≤ length messages →
  lastAssistant messages i = Some (idx, msg) ↔
    idx < i
    ∧ messages !! idx = Some msg
    ∧ field msg "role" = "assistant"
    ∧ ∀ j later, idx < j < i → messages !! j = Some later →
                 field later "role" ≠ "assistant".
Proof.
  induction i as [|i IH]; intros Hi; simpl.
  { split; [done|]. intros [? _]. lia. }
  destruct (lookup_lt_is_Some_2 messages i) as [m Hm]; [lia|].
  rewrite Hm. case_bool_decide as Hrole.
  - split.
    + intros [= <- <-]. split_and!; [lia|done..|]. intros j later ?. lia.
    + intros (Hlt & Hidx & Hmsg & Hlater).
      destruct (decide (idx = i)) as [->|Hne]; [by simplify_eq|].
      destruct (Hlater i m); [lia|done..].
  - rewrite IH by lia. split.
    + intros (Hlt & Hidx & Hmsg & Hlater). split_and!; [lia|done..|].
      intros j later Hj Hjm.
      destruct (decide (j = i)) as [->|Hne]; [by simplify_eq|].
      apply (Hlater j later); [lia|done].
    + intros (Hlt & Hidx & Hmsg & Hlater).
      assert (idx ≠ i) by (intros ->; by simplify_eq).
      split_and!; [lia|done..|].
      intros j later Hj. apply Hlater. lia.
Qed.

Lemma lastAssistant_spec (messages : list json) (idx : nat) (msg : json) :
  lastAssistant messages (length messages) = Some (idx, msg)
  ↔ isLastAssistant messages idx msg.
Proof.
  rewrite lastAssistant_Some by done. unfold isLastAssistant. split.
  - intros (_ & Hidx & Hmsg & Hlater). split_and!; [done..|].
    intros j later Hj Hjm. apply (Hlater j later); [|done].
    split; [done|]. by eapply lookup_lt_Some.
  - intros (Hidx & Hmsg & Hlater). split_and!; [by eapply lookup_lt_Some|done..|].
    intros j later [Hj _]. by apply Hlater.
Qed.

(** The collecting iterator never stops, so the loop gathers the dangling
    ids of all items, in order. *)
Lemma ForEach_collectToolUse (items : list json) (acc : list string) :
  ForEach items collectToolUse acc = acc ++ danglingIds items.
Proof.
  revert acc. induction items as [|item items IH]; intros acc; simpl.
  { by rewrite app_nil_r. }
  unfold collectToolUse, danglingIds. simpl. fold (danglingIds items).
  case_bool_decide as Htype.
  - case_bool_decide as Hid.
    + rewrite IH, bool_decide_eq_true_2 by done. by rewrite <-app_assoc.
    + rewrite IH, bool_decide_eq_false_2 by tauto. done.
  - rewrite IH, bool_decide_eq_false_2 by tauto. done.
Qed.

(** The searching iterator stops on the first tool_result item. *)
Lemma ForEach_findToolResult (items : list json) :
  ForEach items findToolResult false = true
  ↔ ∃ item, item ∈ items ∧ field item "type" = "tool_result".
Proof.
  induction items as [|item items IH]; simpl.
  { split; [done|]. intros (item & Hin & _). by apply elem_of_nil in Hin. }
  unfold findToolResult at 1. case_bool_decide as Htype.
  - split; [|done]. intros _. exists item. split; [apply list_elem_of_here|done].
  - rewrite IH. split.
    + intros (it & Hin & Hit). exists it. split; [by apply list_elem_of_further|done].
    + intros (it & Hin & Hit). apply elem_of_cons in Hin as [->|Hin]; [done|].
      by exists it.
Qed.

Lemma hasToolResultAfter_spec (messages : list json) (idx : nat) :
  hasToolResultAfter messages idx = true ↔ answered messages idx.
Proof.
  unfold hasToolResultAfter, answered. split.
  - case_bool_decide as Hlt; [|done].
    destruct (messages !! (idx + 1)) as [next|] eqn:Hnext; [|done].
    case_bool_decide as Hrole; [|done].
    destruct (gjson_Get next "content") as [[| | | |items|]|] eqn:Hcontent; try done.
    simpl. intros (item & Hin & Hitem)%ForEach_findToolResult.
    by exists next, items, item.
  - intros (next & items & item & Hnext & Hrole & Hcontent & Hin & Hitem).
    rewrite bool_decide_eq_true_2 by by eapply lookup_lt_Some.
    rewrite Hnext, bool_decide_eq_true_2, Hcontent by done. simpl.
    apply ForEach_findToolResult. by exists item.
Qed.

(** Enters [FixIncompleteToolUse] with the messages array at hand. *)
Ltac open_repair Hmessages :=
  unfold FixIncompleteToolUse; rewrite Hmessages;
  cbn [Exists IsArray Array negb orb].

(** The body is repaired exactly on this path: the messages array has a
    last assistant message with dangling ids and no tool_result right
    after it. *)
Lemma FixIncompleteToolUse_repair (body : json) (messages : list json) (idx : nat)
    (msg : json) (items : list json) :
  gjson_Get body "messages" = Some (JArray messages) →
  lastAssistant messages (length messages) = Some (idx, msg) →
  gjson_Get msg "content" = Some (JArray items) →
  danglingIds items ≠ [] →
  hasToolResultAfter messages idx = false →
  ∃ out, FixIncompleteToolUse body = (out, true, None)
         ∧ appendsMessage body out (newUserMsg (danglingIds items)).
Proof.
  intros Hmessages Hlast Hcontent Hids Hafter.
  destruct (sjson_Set_appends body messages (newUserMsg (danglingIds items)) Hmessages)
    as (out & Hset & Happend).
  exists out. split; [|done].
  open_repair Hmessages.
  rewrite bool_decide_eq_false_2.
  2:{ intros Hlen. rewrite Hlen in Hlast. done. }
  rewrite Hlast, Hcontent. cbn [Exists IsArray Array negb orb].
  rewrite ForEach_collectToolUse, app_nil_l.
  rewrite bool_decide_eq_false_2.
  2:{ by destruct (danglingIds items). }
  by rewrite Hafter, Hset.
Qed.

(** Every run either returns the body as it came, or is a repair. *)
Lemma FixIncompleteToolUse_cases (body : json) :
  FixIncompleteToolUse body = (body, false, None)
  ∨ ∃ messages idx msg items out,
      gjson_Get body "messages" = Some (JArray messages)
      ∧ lastAssistant messages (length messages) = Some (idx, msg)
      ∧ gjson_Get msg "content" = Some (JArray items)
      ∧ danglingIds items ≠ []
      ∧ hasToolResultAfter messages idx = false
      ∧ FixIncompleteToolUse body = (out, true, None)
      ∧ appendsMessage body out (newUserMsg (danglingIds items)).
Proof.
  destruct (gjson_Get body "messages") as [[| | | |messages|]|] eqn:Hmessages;
    try (left; unfold FixIncompleteToolUse; by rewrite Hmessages).
  destruct (lastAssistant messages (length messages)) as [[idx msg]|] eqn:Hlast.
  2:{ left. open_repair Hmessages. case_bool_decide; [done|]. by rewrite Hlast. }
  destruct (gjson_Get msg "content") as [[| | | |items|]|] eqn:Hcontent;
    try (left; open_repair Hmessages; case_bool_decide; [done|];
         by rewrite Hlast, Hcontent).
  destruct (decide (danglingIds items = [])) as [Hnone|Hids].
  { left. open_repair Hmessages. case_bool_decide; [done|].
    rewrite Hlast, Hcontent. cbn [Exists IsArray Array negb orb].
    by rewrite ForEach_collectToolUse, Hnone. }
  destruct (hasToolResultAfter messages idx) eqn:Hafter.
  { left. open_repair Hmessages. case_bool_decide; [done|].
    rewrite Hlast, Hcontent. cbn [Exists IsArray Array negb orb].
    rewrite ForEach_collectToolUse, Hafter. by case_bool_decide. }
  right.
  destruct (FixIncompleteToolUse_repair body messages idx msg items)
    as (out & Hout & Happend); [done..|].
  by exists messages, idx, msg, items, out.
Qed.

(** The splice of sjson never fails on a body that reaches it. *)
Lemma FixIncompleteToolUse_no_error (body : json) :
  (FixIncompleteToolUse body).2 = None.
Proof.
  destruct (FixIncompleteToolUse_cases body)
    as [->|(messages & idx & msg & items & out & _ & _ & _ & _ & _ & -> & _)]; done.
Qed.

(** C3. For a body whose messages array has a last assistant message whose
    content array holds tool_use items with non-empty ids: if the message
    right after it exists, has role user, has an array content and one of its
    items has type tool_result, the body is returned unchanged with
    repaired = false; otherwise the result is the body with one message
    appended at the end of messages, of role user, whose content lists one
    tool_result object per dangling id, in order, and repaired = true. *)
Theorem FixIncompleteToolUse_repairs_when_needed
    (body : json) (messages : list json) (idx : nat) (msg : json) (items : list json)
    (Hmessages : gjson_Get body "messages" = Some (JArray messages))
    (Hlast : isLastAssistant messages idx msg)
    (Hcontent : gjson_Get msg "content" = Some (JArray items))
    (Hids : danglingIds items ≠ []) :
  (answered messages idx → FixIncompleteToolUse body = (body, false, None))
  ∧ (¬ answered messages idx →
     ∃ out,
       FixIncompleteToolUse body = (out, true, None)
       ∧ appendsMessage body out
           (JObject
              [("content",
                JArray
                  ((λ id, JObject [("content", JString interruptedText);
                                   ("is_error", JBool true);
                                   ("tool_use_id", JString id);
                                   ("type", JString "tool_result")])
                   <$> danglingIds items));
               ("role", JString "user")])).
Proof.
  apply lastAssistant_spec in Hlast. split.
  - intros Hanswered%hasToolResultAfter_spec.
    destruct (FixIncompleteToolUse_cases body)
      as [Hsame|(messages' & idx' & msg' & items' & out & Hm & Hl & _ & _ & Hafter & _)];
      [done|].
    rewrite Hmessages in Hm. injection Hm as <-.
    rewrite Hlast in Hl. injection Hl as <- <-.
    by rewrite Hanswered in Hafter.
  - intros Hnot.
    apply (FixIncompleteToolUse_repair body messages idx msg items); [done..|].
    destruct (hasToolResultAfter messages idx) eqn:Hafter; [|done].
    by apply hasToolResultAfter_spec in Hafter.
Qed.

(** C6. The repair is additive: the result is the body itself or the body
    with one message appended at the end of messages; the messages array of
    the input is a prefix of the one of the output, which is at most one
    longer; every other member reads as before and no member disappears. *)
Theorem FixIncompleteToolUse_additive (body : json) :
  let out := (FixIncompleteToolUse body).1.1 in
  let before := Array (gjson_Get body "messages") in
  let after := Array (gjson_Get out "messages") in
  (out = body ∨ ∃ msg, appendsMessage body out msg)
  ∧ before `prefix_of` after
  ∧ length before ≤ length after ≤ length before + 1
  ∧ (∀ key, key ≠ "messages" → gjson_Get out key = gjson_Get body key)
  ∧ (∀ key, is_Some (gjson_Get body key) → is_Some (gjson_Get out key)).
Proof.
  intros out before after. subst out before after.
  destruct (FixIncompleteToolUse_cases body)
    as [->|(messages & idx & msg & items & out & _ & _ & _ & _ & _ & -> & Happend)];
    simpl.
  { split_and!; [by left|done|lia|lia|done|done]. }
  destruct (appendsMessage_messages _ _ _ Happend) as (messages' & Hbody & Hout).
  rewrite Hbody, Hout. simpl. split_and!.
  - right. by eexists.
  - by apply prefix_app_r.
  - rewrite length_app. simpl. lia.
  - rewrite length_app. simpl. lia.
  - intros key Hkey. by eapply appendsMessage_other.
  - intros key Hsome. destruct (decide (key = "messages")) as [->|Hkey].
    + rewrite Hout. by eexists.
    + by erewrite appendsMessage_other.
Qed.

(** After a repair the last assistant message is still the same one: the
    appended message has role user. *)
Lemma isLastAssistant_snoc (messages : list json) (idx : nat) (msg : json)
    (ids : list string) :
  isLastAssistant messages idx msg →
  isLastAssistant (messages ++ [newUserMsg ids]) idx msg.
Proof.
  intros (Hidx & Hrole & Hlater). split_and!; [|done|].
  - rewrite lookup_app_l; [done|]. by eapply lookup_lt_Some.
  - intros j later Hj Hjm.
    destruct (decide (j < length messages)) as [Hlt|Hge].
    + rewrite lookup_app_l in Hjm by done. by apply (Hlater j later).
    + rewrite lookup_app_r in Hjm by lia.
      destruct (j - length messages) as [|k]; simpl in Hjm; [|done].
      injection Hjm as <-. done.
Qed.

(** The appended message answers an assistant message that was the last
    message of the array. *)
Lemma answered_by_repair (messages : list json) (idx : nat) (ids : list string) :
  idx + 1 = length messages → ids ≠ [] →
  answered (messages ++ [newUserMsg ids]) idx.
Proof.
  intros Hidx Hids. destruct ids as [|id ids]; [done|].
  exists (newUserMsg (id :: ids)), (toolResult <$> id :: ids), (toolResult id).
  split_and!; [|done|done| |done].
  - rewrite lookup_app_r by lia. by replace (idx + 1 - length messages) with 0 by lia.
  - apply list_elem_of_here.
Qed.

(** When the dangling assistant message is the last message of the array,
    a second pass over the repaired body changes nothing. *)
Lemma FixIncompleteToolUse_stable_when_trailing (body : json) (messages : list json)
    (idx : nat) (msg : json) :
  gjson_Get body "messages" = Some (JArray messages) →
  isLastAssistant messages idx msg →
  idx + 1 = length messages →
  FixIncompleteToolUse (FixIncompleteToolUse body).1.1
  = ((FixIncompleteToolUse body).1.1, false, None).
Proof.
  intros Hmessages Hlast Htrailing.
  destruct (FixIncompleteToolUse_cases body)
    as [Hsame|(messages' & idx' & msg' & items & out & Hm & Hl & Hc & Hids & _ & Hout
               & Happend)].
  { by rewrite !Hsame. }
  rewrite Hout. simpl.
  rewrite Hmessages in Hm. injection Hm as <-.
  apply lastAssistant_spec in Hl.
  assert (idx' = idx ∧ msg' = msg) as [-> ->].
  { apply lastAssistant_spec in Hl, Hlast. rewrite Hlast in Hl. by injection Hl. }
  destruct (appendsMessage_messages _ _ _ Happend) as (messages'' & Hbody & Hnew).
  rewrite Hmessages in Hbody. injection Hbody as <-.
  destruct (FixIncompleteToolUse_cases out)
    as [Hsame|(ms & i & m & its & out' & Hm2 & Hl2 & _ & _ & Hafter & _)]; [done|].
  rewrite Hnew in Hm2. injection Hm2 as <-.
  pose proof (isLastAssistant_snoc _ _ _ (danglingIds items) Hlast) as Hlast'.
  apply lastAssistant_spec in Hlast'. rewrite Hlast' in Hl2. injection Hl2 as <- <-.
  pose proof (answered_by_repair messages idx (danglingIds items) Htrailing Hids)
    as Hanswered.
  apply hasToolResultAfter_spec in Hanswered. by rewrite Hanswered in Hafter.
Qed.

End ToolUseFacts.

(** C5 fails on the code.  When the last assistant message has dangling
    ids and is followed by a message without tool_result, the first pass
    appends a message at the end of the array, and a second pass over the
    result does not find it right after the assistant message and appends
    once more: the repair of the repaired body is a different body. *)
Theorem FixIncompleteToolUse_repeats_repair `{GjsonText} :
  let once := FixIncompleteToolUse sampleFollowed in
  let twice := FixIncompleteToolUse once.1.1 in
  once.1.2 = true
  ∧ twice.1.2 = true
  ∧ length (Array (gjson_Get once.1.1 "messages")) = 3
  ∧ length (Array (gjson_Get twice.1.1 "messages")) = 4
  ∧ twice ≠ once.
Proof.
  vm_compute. split_and!; done.
Qed.

(** Scenario 4 of the specification. *)
Lemma FixIncompleteToolUse_repairs_when_needed_witness :
  ∃ out,
    @FixIncompleteToolUse plainText sampleTrailing = (out, true, None)
    ∧ appendsMessage sampleTrailing out (newUserMsg ["T1"; "T2"]).
Proof.
  refine (proj2 (@FixIncompleteToolUse_repairs_when_needed plainText sampleTrailing
                   [sampleUserText; sampleAssistant] 1 sampleAssistant
                   [JObject [("type", JString "text"); ("text", JString "running")];
                    JObject [("type", JString "tool_use"); ("id", JString "T1")];
                    JObject [("type", JString "tool_use"); ("id", JString "T2")]]
                   _ _ _ _) _).
  - reflexivity.
  - split_and!; [reflexivity|reflexivity|].
    intros j later Hj Hlater. apply lookup_lt_Some in Hlater. simpl in Hlater. lia.
  - reflexivity.
  - vm_compute. discriminate.
  - intros (next & items & item & Hnext & _). discriminate Hnext.
Defined.

(* ===================================================================== *)
(** * Further properties of the provider filter *)
(* ===================================================================== *)

(** X1. [FilterProviders] keeps the input order: [Active] is a subsequence
    of the input, every active provider is enabled and has a non-empty URL
    and key, and no more providers are counted or kept than came in. *)
Theorem FilterProviders_order_and_validity
    (providers : list Provider) (kind requestedModel : string)
    (blacklistChecker : option BlacklistChecker)
    (modelChecker : option ModelChecker)
    (configValidator : option ConfigValidator) :
  let result := FilterProviders providers kind requestedModel blacklistChecker
                  modelChecker configValidator in
  Active result `sublist_of` providers
  ∧ Forall (λ p, Enabled p = true ∧ APIURL p ≠ "" ∧ APIKey p ≠ "") (Active result)
  ∧ SkippedCount result + length (Active result) ≤ length providers.
Proof.
  intros result. subst result.
  rewrite FilterProviders_SkippedCount, FilterProviders_Active. split_and!.
  - apply sublist_filter.
  - apply Forall_forall. intros p [Hp _]%list_elem_of_filter.
    unfold passesBasic in Hp. simpl in Hp. unfold nonempty in Hp.
    destruct (Enabled p); [|done]. simpl in Hp.
    repeat case_bool_decide; simpl in Hp; try done.
  - rewrite Nat.add_comm,
      <-(basic_split kind requestedModel blacklistChecker modelChecker configValidator).
    apply length_filter.
Qed.

(** X2. With an empty requested model the model checker is never asked:
    the result is the one obtained without a model checker. *)
Theorem FilterProviders_empty_model
    (providers : list Provider) (kind : string)
    (blacklistChecker : option BlacklistChecker)
    (modelChecker : option ModelChecker)
    (configValidator : option ConfigValidator) :
  FilterProviders providers kind "" blacklistChecker modelChecker configValidator
  = FilterProviders providers kind "" blacklistChecker None configValidator.
Proof.
  unfold FilterProviders. generalize (mkFilterResult (@nil Provider) 0).
  induction providers as [|p providers IH]; intros acc; simpl; [done|].
  rewrite IH. f_equal.
  unfold FilterProviders_step, modelRejects.
  destruct modelChecker as [supports|]; [|done].
  by change (nonempty "") with false.
Qed.

(** X3. Without hooks (nil validator, nil model checker, nil blacklist
    checker) nothing is counted and [Active] holds exactly the enabled
    providers with a valid configuration, in input order. *)
Theorem FilterProviders_without_hooks
    (providers : list Provider) (kind requestedModel : string) :
  FilterProviders providers kind requestedModel None None None
  = mkFilterResult (filter (λ p, passesBasic p = true) providers) 0.
Proof.
  unfold FilterProviders.
  rewrite FilterProviders_loop. cbn [Active SkippedCount app Nat.add]. f_equal.
  - apply list_filter_iff. intros p. unfold passesHooks. simpl.
    by rewrite andb_true_r.
  - induction providers as [|p providers IH]; [done|].
    rewrite filter_cons_False; [done|].
    unfold passesHooks. simpl. by rewrite andb_false_r.
Qed.

(** X4. Filtering is idempotent: running the same filter on its own
    [Active] list returns that list again and counts nothing. *)
Theorem FilterProviders_idempotent
    (providers : list Provider) (kind requestedModel : string)
    (blacklistChecker : option BlacklistChecker)
    (modelChecker : option ModelChecker)
    (configValidator : option ConfigValidator) :
  let result := FilterProviders providers kind requestedModel blacklistChecker
                  modelChecker configValidator in
  FilterProviders (Active result) kind requestedModel blacklistChecker
    modelChecker configValidator
  = mkFilterResult (Active result) 0.
Proof.
  intros result. subst result. unfold FilterProviders at 1.
  rewrite FilterProviders_loop, FilterProviders_Active. simpl. f_equal.
  - by apply list_filter_filter_l.
  - rewrite list_filter_filter.
    induction providers as [|p providers IH]; [done|].
    rewrite filter_cons. case_decide as Hp; [|done].
    destruct Hp as [Hrej Hok]. destruct (passesBasic p); [|done]. simpl in *.
    destruct (passesHooks kind requestedModel blacklistChecker modelChecker
                configValidator p); done.
Qed.

(** X5. The filter works provider by provider: on a concatenation the
    active lists are concatenated and the counts are added. *)
Theorem FilterProviders_app
    (front back : list Provider) (kind requestedModel : string)
    (blacklistChecker : option BlacklistChecker)
    (modelChecker : option ModelChecker)
    (configValidator : option ConfigValidator) :
  let run l := FilterProviders l kind requestedModel blacklistChecker
                 modelChecker configValidator in
  Active (run (front ++ back)) = Active (run front) ++ Active (run back)
  ∧ SkippedCount (run (front ++ back))
    = SkippedCount (run front) + SkippedCount (run back).
Proof.
  intros run. subst run. simpl.
  rewrite !FilterProviders_Active, !FilterProviders_SkippedCount.
  by rewrite !filter_app, length_app.
Qed.

(** X6. [FilterGeminiProviders] returns as [Active] the input filtered, in
    order and with repetitions kept, by: enabled, non-empty base URL and,
    when a checker is given, not reported as blacklisted under kind gemini;
    so [Active] is a subsequence of the input with exactly those members,
    and it never counts a skipped provider. *)
Theorem FilterGeminiProviders_spec
    (providers : list GeminiProvider) (blacklistChecker : option BlacklistChecker) :
  let result := FilterGeminiProviders providers blacklistChecker in
  Active result
    = match blacklistChecker with
      | Some check =>
        filter (λ p, GeminiEnabled p = true ∧ BaseURL p ≠ ""
                     ∧ (check "gemini" (GeminiName p)).1 = false) providers
      | None =>
        filter (λ p, GeminiEnabled p = true ∧ BaseURL p ≠ "") providers
      end
  ∧ Active result `sublist_of` providers
  ∧ (∀ p, p ∈ Active result ↔
          p ∈ providers ∧ GeminiEnabled p = true ∧ BaseURL p ≠ ""
          ∧ ∀ check, blacklistChecker = Some check →
                     (check "gemini" (GeminiName p)).1 = false)
  ∧ SkippedCount result = 0.
Proof.
  intros result. subst result. unfold FilterGeminiProviders.
  rewrite FilterGeminiProviders_loop. simpl.
  split_and!; [|apply sublist_filter| |done].
  { destruct blacklistChecker as [check|]; apply list_filter_iff; intros p;
      unfold passesBasic, blacklisted; simpl; unfold nonempty;
      destruct (GeminiEnabled p); simpl; try (intuition congruence);
      case_bool_decide as Hurl; simpl; try (intuition congruence).
    destruct (check "gemini" (GeminiName p)).1; simpl; intuition congruence. }
  intros p. rewrite list_elem_of_filter. unfold passesBasic, blacklisted. simpl.
  unfold nonempty. destruct (GeminiEnabled p); simpl.
  2:{ split; [by intros [? _]|]. by intros (_ & ? & _). }
  case_bool_decide as Hurl; simpl.
  2:{ split; [by intros [? _]|]. by intros (_ & _ & ? & _). }
  destruct blacklistChecker as [check|]; simpl.
  - destruct (check "gemini" (GeminiName p)).1 eqn:Hcheck; simpl.
    + split; [by intros [? _]|]. intros (_ & _ & _ & Hfree).
      specialize (Hfree check eq_refl). congruence.
    + split; [|by intros [? _]]. intros [_ Hin]. split_and!; [done..|].
      by intros ? [= <-].
  - split; [|by intros [? _]]. intros [_ Hin]. by split_and!.
Qed.

(* ===================================================================== *)
(** * Properties of the grouping by level *)
(* ===================================================================== *)

Section GroupFacts.

Context {T : Type} `{ProviderLike T}.

(** The loop, started from any intermediate map: the group of a level
    grows by the providers of that level, in order. *)
Lemma GroupByLevel_loop_groupAt (acc : gmap Z (list T)) (providers : list T) (level : Z) :
  groupAt (foldl GroupByLevel_step acc providers) level
  = groupAt acc level ++ filter (λ p, GetLevel p = level) providers.
Proof.
  revert acc. induction providers as [|p providers IH]; intros acc; simpl.
  { by rewrite app_nil_r. }
  rewrite IH, filter_cons. unfold GroupByLevel_step, groupAt.
  case_decide as Hlevel.
  - rewrite Hlevel, lookup_insert_eq. simpl. by rewrite <-app_assoc.
  - by rewrite lookup_insert_ne.
Qed.

(** A level is a key of the map exactly when it was one before or some
    provider carries it. *)
Lemma GroupByLevel_loop_keys (acc : gmap Z (list T)) (providers : list T) (level : Z) :
  is_Some (foldl GroupByLevel_step acc providers !! level)
  ↔ is_Some (acc !! level) ∨ ∃ p, p ∈ providers ∧ GetLevel p = level.
Proof.
  revert acc. induction providers as [|p providers IH]; intros acc; simpl.
  { split; [by left|]. intros [?|(p & Hp & _)]; [done|]. by apply elem_of_nil in Hp. }
  rewrite IH. unfold GroupByLevel_step. rewrite lookup_insert.
  case_decide as Hlevel.
  - split; [|by left]. intros _. right. exists p. split; [apply list_elem_of_here|done].
  - split.
    + intros [?|(q & Hq & Hlq)]; [by left|]. right. exists q.
      split; [by apply list_elem_of_further|done].
    + intros [?|(q & Hq & Hlq)]; [by left|].
      apply elem_of_cons in Hq as [->|Hq]; [done|]. right. by exists q.
Qed.

Lemma GroupByLevel_groupAt (providers : list T) (level : Z) :
  groupAt (Groups (GroupByLevel providers)) level
  = filter (λ p, GetLevel p = level) providers.
Proof. unfold GroupByLevel. simpl. by rewrite GroupByLevel_loop_groupAt. Qed.

Lemma GroupByLevel_keys (providers : list T) (level : Z) :
  is_Some (Groups (GroupByLevel providers) !! level)
  ↔ ∃ p, p ∈ providers ∧ GetLevel p = level.
Proof.
  unfold GroupByLevel. simpl. rewrite GroupByLevel_loop_keys, lookup_empty.
  split; [|by right]. intros [[? ?]|?]; done.
Qed.

Lemma SortedLevels_elem_of (providers : list T) (level : Z) :
  level ∈ SortedLevels (GroupByLevel providers)
  ↔ ∃ p, p ∈ providers ∧ GetLevel p = level.
Proof.
  rewrite <-GroupByLevel_keys. unfold GroupByLevel. simpl.
  rewrite merge_sort_Permutation, list_elem_of_fmap. split.
  - intros ([k v] & -> & Hkv). apply elem_of_map_to_list in Hkv. by exists v.
  - intros [v Hv]. exists (level, v). split; [done|]. by apply elem_of_map_to_list.
Qed.

Lemma SortedLevels_NoDup (providers : list T) :
  NoDup (SortedLevels (GroupByLevel providers)).
Proof.
  unfold GroupByLevel. simpl. rewrite merge_sort_Permutation.
  apply NoDup_fst_map_to_list.
Qed.

End GroupFacts.

(** A list sorted by [≤] without duplicates is strictly ascending. *)
Lemma StronglySorted_le_lt (levels : list Z) :
  StronglySorted Z.le levels → NoDup levels → StronglySorted Z.lt levels.
Proof.
  induction 1 as [|level levels Hsorted IH Hall]; intros Hnodup; [constructor|].
  apply NoDup_cons in Hnodup as [Hfresh Hnodup].
  constructor; [by apply IH|].
  rewrite Forall_forall in Hall |- *. intros other Hother.
  assert (level ≠ other) by (intros ->; done).
  specialize (Hall other Hother). lia.
Qed.

#[local] Instance Z_le_total : Total Z.le.
Proof. intros x y. lia. Qed.

(** X7. [SortedLevels] is strictly ascending (sorted, no level twice) and
    holds exactly the levels that some provider of the input reports. *)
Theorem GroupByLevel_SortedLevels {T : Type} `{ProviderLike T} (providers : list T) :
  StronglySorted Z.lt (SortedLevels (GroupByLevel providers))
  ∧ ∀ level, level ∈ SortedLevels (GroupByLevel providers)
             ↔ ∃ p, p ∈ providers ∧ GetLevel p = level.
Proof.
  split; [|apply SortedLevels_elem_of].
  apply StronglySorted_le_lt; [|apply SortedLevels_NoDup].
  unfold GroupByLevel. simpl. apply StronglySorted_merge_sort; apply _.
Qed.

(** X8. The group stored under a level holds the providers of that level
    in input order; a level is a key of [Groups] only if some provider has
    it, so no stored group is empty, and the keys of [Groups] are the
    members of [SortedLevels]. *)
Theorem GroupByLevel_Groups {T : Type} `{ProviderLike T} (providers : list T) (level : Z) :
  let lg := GroupByLevel providers in
  (∀ group, Groups lg !! level = Some group →
            group = filter (λ p, GetLevel p = level) providers ∧ group ≠ [])
  ∧ (Groups lg !! level = None ↔ ∀ p, p ∈ providers → GetLevel p ≠ level)
  ∧ (is_Some (Groups lg !! level) ↔ level ∈ SortedLevels lg).
Proof.
  intros lg. subst lg. split_and!.
  - intros group Hgroup.
    pose proof (GroupByLevel_groupAt providers level) as Hat.
    unfold groupAt in Hat. rewrite Hgroup in Hat. simpl in Hat. split; [done|].
    destruct (proj1 (GroupByLevel_keys providers level)) as (p & Hp & Hlevel);
      [by eexists|].
    intros ->. symmetry in Hat.
    assert (p ∈ filter (λ p, GetLevel p = level) providers) as Hin
      by by apply list_elem_of_filter.
    rewrite Hat in Hin. by apply elem_of_nil in Hin.
  - rewrite eq_None_not_Some, GroupByLevel_keys. split.
    + intros Hno p Hp Hlevel. apply Hno. by exists p.
    + intros Hno (p & Hp & Hlevel). by apply (Hno p).
  - by rewrite GroupByLevel_keys, SortedLevels_elem_of.
Qed.

(** A filter that no element passes returns the empty list. *)
Lemma filter_none {A : Type} (P : A → Prop) `{!∀ x, Decision (P x)} (l : list A) :
  (∀ x, x ∈ l → ¬ P x) → filter P l = [].
Proof.
  induction l as [|x l IH]; intros Hnone; [done|].
  rewrite filter_cons_False by (apply Hnone, list_elem_of_here).
  apply IH. intros y Hy. by apply Hnone, list_elem_of_further.
Qed.

Section FlattenFacts.

Context {T : Type} `{ProviderLike T}.

(** The providers of the given levels, level by level. *)
Let byLevels (providers : list T) (levels : list Z) : list T :=
  concat ((λ level, filter (λ p, GetLevel p = level) providers) <$> levels).

Lemma flatten_byLevels (providers : list T) :
  flatten (GroupByLevel providers)
  = byLevels providers (SortedLevels (GroupByLevel providers)).
Proof.
  unfold flatten, byLevels. f_equal. apply list_fmap_ext.
  intros i level _. apply GroupByLevel_groupAt.
Qed.

(** Splitting off one level that is not among the others. *)
Lemma filter_level_split (providers : list T) (level : Z) (levels : list Z) :
  level ∉ levels →
  filter (λ p, GetLevel p = level) providers
    ++ filter (λ p, GetLevel p ∈ levels) providers
  ≡ₚ filter (λ p, GetLevel p ∈ level :: levels) providers.
Proof.
  intros Hfresh. induction providers as [|p providers IH]; [done|].
  rewrite !filter_cons.
  destruct (decide (GetLevel p = level)) as [Hp|Hp].
  - rewrite decide_False by (by rewrite Hp).
    rewrite decide_True by (rewrite Hp; apply list_elem_of_here).
    simpl. by rewrite IH.
  - destruct (decide (GetLevel p ∈ levels)) as [Hin|Hin].
    + rewrite decide_True by (by apply list_elem_of_further).
      by rewrite <-Permutation_middle, IH.
    + rewrite decide_False; [done|].
      rewrite elem_of_cons. tauto.
Qed.

Lemma byLevels_Permutation (providers : list T) (levels : list Z) :
  NoDup levels →
  byLevels providers levels ≡ₚ filter (λ p, GetLevel p ∈ levels) providers.
Proof.
  unfold byLevels. induction 1 as [|level levels Hfresh Hnodup IH]; simpl.
  - induction providers as [|p providers IHp]; [done|].
    rewrite filter_cons_False; [done|]. apply not_elem_of_nil.
  - by rewrite IH, filter_level_split.
Qed.

Lemma byLevels_elem_of (providers : list T) (levels : list Z) (p : T) :
  p ∈ byLevels providers levels ↔ p ∈ providers ∧ GetLevel p ∈ levels.
Proof.
  unfold byLevels. induction levels as [|level levels IH]; simpl.
  - rewrite elem_of_nil, elem_of_nil. tauto.
  - rewrite elem_of_app, IH, list_elem_of_filter, elem_of_cons. tauto.
Qed.

(** All providers of one level: a constant list of levels. *)
Lemma same_level_sorted (providers : list T) (level : Z) :
  StronglySorted Z.le (GetLevel <$> filter (λ p, GetLevel p = level) providers).
Proof.
  induction providers as [|p providers IH]; [constructor|].
  rewrite filter_cons. case_decide as Hp; [|done].
  simpl. constructor; [done|].
  apply Forall_forall. intros other (q & -> & [Hq _]%list_elem_of_filter)%list_elem_of_fmap.
  lia.
Qed.

Lemma byLevels_sorted (providers : list T) (levels : list Z) :
  StronglySorted Z.lt levels →
  StronglySorted Z.le (GetLevel <$> byLevels providers levels).
Proof.
  unfold byLevels. induction 1 as [|level levels Hsorted IH Hall]; simpl; [constructor|].
  rewrite fmap_app. apply StronglySorted_app_2; [|apply same_level_sorted|done].
  intros l1 l2 (p & -> & [Hp _]%list_elem_of_filter)%list_elem_of_fmap
               (q & -> & [_ Hq]%byLevels_elem_of)%list_elem_of_fmap.
  rewrite Forall_forall in Hall. specialize (Hall _ Hq). lia.
Qed.

(** Within one level the order of the input is kept. *)
Lemma byLevels_level (providers : list T) (levels : list Z) (level : Z) :
  NoDup levels → level ∈ levels →
  filter (λ p, GetLevel p = level) (byLevels providers levels)
  = filter (λ p, GetLevel p = level) providers.
Proof.
  induction 1 as [|first levels Hfresh Hnodup IH].
  { intros Hin. by apply elem_of_nil in Hin. }
  intros Hin.
  change (byLevels providers (first :: levels))
    with (filter (λ p, GetLevel p = first) providers ++ byLevels providers levels).
  rewrite filter_app, list_filter_filter.
  destruct (decide (level = first)) as [->|Hne].
  - rewrite (list_filter_iff _ (λ p, GetLevel p = first)) by tauto.
    assert (filter (λ p, GetLevel p = first) (byLevels providers levels) = []) as ->;
      [|by rewrite app_nil_r].
    apply filter_none.
    intros p [_ Hp]%byLevels_elem_of Hlevel. by rewrite Hlevel in Hp.
  - apply elem_of_cons in Hin as [?|Hin]; [done|]. rewrite IH by done.
    assert (filter (λ p, GetLevel p = level ∧ GetLevel p = first) providers = []) as ->;
      [|done].
    apply filter_none. intros p _ [? ?]. congruence.
Qed.

End FlattenFacts.

(** X9. Laying the groups out in the order of [SortedLevels] loses and
    repeats no provider, puts the providers in ascending order of level,
    and keeps the input order among the providers of one level. *)
Theorem GroupByLevel_flatten {T : Type} `{ProviderLike T} (providers : list T) :
  let flat := flatten (GroupByLevel providers) in
  flat ≡ₚ providers
  ∧ StronglySorted Z.le (GetLevel <$> flat)
  ∧ ∀ level, filter (λ p, GetLevel p = level) flat
             = filter (λ p, GetLevel p = level) providers.
Proof.
  intros flat. subst flat. rewrite flatten_byLevels.
  destruct (GroupByLevel_SortedLevels providers) as [Hsorted Hlevels].
  split_and!.
  - rewrite byLevels_Permutation by apply SortedLevels_NoDup.
    assert (filter (λ p, GetLevel p ∈ SortedLevels (GroupByLevel providers)) providers
            = providers) as ->; [|done].
    assert (∀ p, p ∈ providers → GetLevel p ∈ SortedLevels (GroupByLevel providers))
      as Hall.
    { intros p Hp. apply Hlevels. by exists p. }
    clear Hsorted Hlevels. generalize dependent (SortedLevels (GroupByLevel providers)).
    intros levels. induction providers as [|p providers IH]; intros Hall; [done|].
    rewrite filter_cons_True by (apply Hall, list_elem_of_here).
    f_equal. apply IH. intros q Hq. by apply Hall, list_elem_of_further.
  - by apply byLevels_sorted.
  - intros level.
    destruct (decide (level ∈ SortedLevels (GroupByLevel providers))) as [Hin|Hout].
    + apply byLevels_level; [apply SortedLevels_NoDup|done].
    + rewrite !filter_none; [done| |].
      * intros p Hp Hlevel. apply Hout, Hlevels. by exists p.
      * intros p [Hp Hlv]%byLevels_elem_of Hlevel. by rewrite Hlevel in Hlv.
Qed.

(** X10. For [Provider] and for [GeminiProvider] every level in
    [SortedLevels] is at least 1, and a provider whose configured level is
    zero or negative is found in the group of level 1. *)
Theorem GroupByLevel_levels_normalized :
  (∀ providers : list Provider,
     Forall (λ level, 1 ≤ level)%Z (SortedLevels (GroupByLevel providers))
     ∧ ∀ p, p ∈ providers → (Level p ≤ 0)%Z →
            p ∈ groupAt (Groups (GroupByLevel providers)) 1)
  ∧ (∀ providers : list GeminiProvider,
     Forall (λ level, 1 ≤ level)%Z (SortedLevels (GroupByLevel providers))
     ∧ ∀ p, p ∈ providers → (GeminiLevel p ≤ 0)%Z →
            p ∈ groupAt (Groups (GroupByLevel providers)) 1).
Proof.
  split; intros providers; split.
  - apply Forall_forall. intros level (p & _ & <-)%SortedLevels_elem_of.
    simpl. case_bool_decide; lia.
  - intros p Hp Hlevel. rewrite GroupByLevel_groupAt.
    apply list_elem_of_filter. split; [|done]. simpl. by rewrite bool_decide_eq_true_2.
  - apply Forall_forall. intros level (p & _ & <-)%SortedLevels_elem_of.
    simpl. case_bool_decide; lia.
  - intros p Hp Hlevel. rewrite GroupByLevel_groupAt.
    apply list_elem_of_filter. split; [|done]. simpl. by rewrite bool_decide_eq_true_2.
Qed.

(* ===================================================================== *)
(** * Further properties of the round-robin reorder *)
(* ===================================================================== *)

(** A string without a colon cannot be cut around a colon. *)
Lemma cons_no_colon (c : ascii) (s : string) :
  c ≠ ":"%char →
  (∀ a b, s ≠ a +:+ ":" +:+ b) →
  ∀ a b, String c s ≠ a +:+ ":" +:+ b.
Proof.
  intros Hc Hs [|c' a] b; simpl; intros [= ? ?]; [done|]. by apply (Hs a b).
Qed.

Lemma empty_no_colon (a b : string) : "" ≠ a +:+ ":" +:+ b.
Proof. by destruct a. Qed.

(** The decimal digits that [pretty] writes hold no colon. *)
Lemma pretty_N_go_no_colon (x : N) (s : string) :
  (∀ a b, s ≠ a +:+ ":" +:+ b) →
  ∀ a b, pretty_N_go x s ≠ a +:+ ":" +:+ b.
Proof.
  revert s. induction (N.lt_wf_0 x) as [x _ IH]; intros s Hs.
  assert (x = 0 ∨ 0 < x)%N as [->|Hpos] by lia.
  - by rewrite pretty_N_go_0.
  - rewrite pretty_N_go_step by done. apply IH.
    { by apply N.div_lt. }
    apply cons_no_colon; [|done].
    unfold pretty_N_char. by repeat case_match.
Qed.

Lemma pretty_Z_no_colon (z : Z) (a b : string) : pretty z ≠ a +:+ ":" +:+ b.
Proof.
  assert (∀ p : positive, ∀ a b, pretty p ≠ a +:+ ":" +:+ b) as Hpos.
  { intros p. unfold pretty, pretty_positive, pretty, pretty_N.
    rewrite decide_False by done.
    apply pretty_N_go_no_colon, empty_no_colon. }
  destruct z as [|p|p]; unfold pretty, pretty_Z.
  - apply cons_no_colon; [done|apply empty_no_colon].
  - apply Hpos.
  - apply (cons_no_colon "-"); [done|apply Hpos].
Qed.

(** The text after the last colon of a key is the level. *)
Lemma key_cut (platform platform' digits digits' : string) :
  (∀ a b, digits ≠ a +:+ ":" +:+ b) →
  (∀ a b, digits' ≠ a +:+ ":" +:+ b) →
  platform +:+ ":" +:+ digits = platform' +:+ ":" +:+ digits' →
  platform = platform' ∧ digits = digits'.
Proof.
  intros Hd Hd'. revert platform'.
  induction platform as [|c platform IH]; intros [|c' platform'] Hkey.
  - change (String ":" digits = String ":" digits') in Hkey. by injection Hkey as ->.
  - change (String ":" digits = String c' (platform' +:+ ":" +:+ digits')) in Hkey.
    injection Hkey as _ Hcut. by destruct (Hd platform' digits').
  - change (String c (platform +:+ ":" +:+ digits) = String ":" digits') in Hkey.
    injection Hkey as _ Hcut. by destruct (Hd' platform digits).
  - change (String c (platform +:+ ":" +:+ digits)
            = String c' (platform' +:+ ":" +:+ digits')) in Hkey.
    injection Hkey as -> Hrest. by destruct (IH _ Hrest) as [-> ->].
Qed.

Lemma rrKey_eq (platform platform' : string) (level level' : Z) :
  rrKey platform level = rrKey platform' level' → platform = platform' ∧ level = level'.
Proof.
  unfold rrKey. intros Hkey.
  apply key_cut in Hkey as [-> Hlevel]; [|apply pretty_Z_no_colon..].
  split; [done|]. by apply (inj pretty).
Qed.

(** X11. The key is injective: two different (platform, level) pairs
    never share an entry of [lastStart], whatever the platform text is. *)
Theorem rrKey_inj (platform platform' : string) (level level' : Z) :
  rrKey platform level = rrKey platform' level' ↔ platform = platform' ∧ level = level'.
Proof. split; [apply rrKey_eq|by intros [-> ->]]. Qed.

Section ReorderMore.

Context {T : Type} (getName : T → string) (platform : string) (level : Z).

Let key := rrKey platform level.

(** What [Reorder] does to the state is a single write to its key (or
    nothing), and both the output and the written name only depend on the
    name stored under that key. *)
Lemma Reorder_local (rrs rrs' : RoundRobinState) (providers : list T) :
  mapGet (lastStart rrs) key = mapGet (lastStart rrs') key →
  (Reorder rrs platform level providers getName).1
  = (Reorder rrs' platform level providers getName).1
  ∧ (((Reorder rrs platform level providers getName).2 = rrs
      ∧ (Reorder rrs' platform level providers getName).2 = rrs')
     ∨ ∃ name,
         (Reorder rrs platform level providers getName).2 = setLastStart rrs key name
         ∧ (Reorder rrs' platform level providers getName).2 = setLastStart rrs' key name).
Proof.
  subst key. intros Hsame. unfold Reorder.
  case_bool_decide as Hlen; [by split; [|left]|].
  destruct providers as [|first rest]; [by split; [|left]|].
  cbv zeta. rewrite <-Hsame.
  case_bool_decide as Hempty; [split; [done|right; by eexists]|].
  destruct (list_find _ _) as [[lastIdx p]|]; [|split; [done|right; by eexists]].
  split; [done|]. right. rewrite !setLastStart_twice. by eexists.
Qed.

Lemma Reorder_other_key (rrs : RoundRobinState) (providers : list T) (other : string) :
  other ≠ key →
  lastStart (Reorder rrs platform level providers getName).2 !! other
  = lastStart rrs !! other.
Proof.
  intros Hother.
  destruct (Reorder_local rrs rrs providers eq_refl) as [_ [[-> _]|(name & -> & _)]];
    [done|].
  subst key. unfold setLastStart. simpl. by rewrite lookup_insert_ne.
Qed.

End ReorderMore.

(** X12. [Reorder] is framed by its key: every entry of [lastStart] under
    another key is left as it was. *)
Theorem Reorder_frame {T : Type} (rrs : RoundRobinState) (platform : string) (level : Z)
    (providers : list T) (getName : T → string) (other : string)
    (Hother : other ≠ rrKey platform level) :
  lastStart (Reorder rrs platform level providers getName).2 !! other
  = lastStart rrs !! other.
Proof. by apply Reorder_other_key. Qed.

Lemma Reorder_frame_witness :
  let rrs := setLastStart NewRoundRobinState "codex:2" "X" in
  lastStart (Reorder rrs "claude" 1 ["A"; "B"] id).2 !! "codex:2" = Some "X".
Proof.
  intros rrs.
  rewrite (Reorder_frame rrs "claude" 1 ["A"; "B"] id "codex:2"); [reflexivity|].
  vm_compute. discriminate.
Defined.

(** X13. Calls for two different (platform, level) pairs do not disturb
    each other: a call for one pair returns the same order whether or not a
    call for the other pair came before, and the two calls leave the same
    state in either order. *)
Theorem Reorder_pairs_independent {T U : Type} (rrs : RoundRobinState)
    (platform platform' : string) (level level' : Z)
    (providers : list T) (providers' : list U)
    (getName : T → string) (getName' : U → string)
    (Hpair : (platform, level) ≠ (platform', level')) :
  let one := Reorder rrs platform level providers getName in
  let two := Reorder rrs platform' level' providers' getName' in
  (Reorder one.2 platform' level' providers' getName').1 = two.1
  ∧ (Reorder two.2 platform level providers getName).1 = one.1
  ∧ (Reorder one.2 platform' level' providers' getName').2
    = (Reorder two.2 platform level providers getName).2.
Proof.
  intros one two. subst one two.
  assert (rrKey platform level ≠ rrKey platform' level') as Hkey.
  { intros [-> ->]%rrKey_eq. done. }
  set (s := (Reorder rrs platform level providers getName).2).
  set (s' := (Reorder rrs platform' level' providers' getName').2).
  assert (mapGet (lastStart s') (rrKey platform level)
          = mapGet (lastStart rrs) (rrKey platform level)) as Hs'.
  { unfold mapGet. subst s'. by rewrite Reorder_other_key. }
  assert (mapGet (lastStart s) (rrKey platform' level')
          = mapGet (lastStart rrs) (rrKey platform' level')) as Hs.
  { unfold mapGet. subst s. by rewrite Reorder_other_key. }
  destruct (Reorder_local getName platform level rrs s' providers (eq_sym Hs'))
    as [Hout St].
  destruct (Reorder_local getName' platform' level' rrs s providers' (eq_sym Hs))
    as [Hout' St'].
  fold s in St. fold s' in St'.
  split_and!; [by rewrite <-Hout'|by rewrite <-Hout|].
  destruct St as [[E1 E1']|(n1 & E1 & E1')], St' as [[E2 E2']|(n2 & E2 & E2')];
    rewrite E1', E2'; try congruence.
  rewrite E1, E2. unfold setLastStart. simpl. f_equal. by apply insert_insert_ne.
Qed.

Lemma Reorder_pairs_independent_witness :
  let one := Reorder NewRoundRobinState "claude" 1 ["A"; "B"] id in
  let two := Reorder NewRoundRobinState "claude" 2 ["C"; "D"] id in
  (Reorder one.2 "claude" 2 ["C"; "D"] id).1 = two.1
  ∧ (Reorder two.2 "claude" 1 ["A"; "B"] id).1 = one.1
  ∧ (Reorder one.2 "claude" 2 ["C"; "D"] id).2
    = (Reorder two.2 "claude" 1 ["A"; "B"] id).2.
Proof.
  apply (Reorder_pairs_independent NewRoundRobinState "claude" "claude" 1 2
           ["A"; "B"] ["C"; "D"] id id).
  discriminate.
Defined.

(** X14. After a call with at least two providers the name stored under
    the key is the name of the provider that the call put first, so the
    stored name always belongs to a provider of the list just seen. *)
Theorem Reorder_records_head {T : Type} (rrs : RoundRobinState) (platform : string)
    (level : Z) (providers : list T) (getName : T → string)
    (Hlen : 2 ≤ length providers) :
  let result := Reorder rrs platform level providers getName in
  ∃ first, head result.1 = Some first
           ∧ first ∈ providers
           ∧ mapGet (lastStart result.2) (rrKey platform level) = getName first.
Proof.
  intros result. subst result.
  destruct (Reorder_cases getName platform level rrs providers)
    as [[Hshort _]|[(first & _ & Hfirst & ->)|(i & p & next & _ & _ & _ & Hnext & ->)]];
    [lia| |]; simpl.
  - exists first. split_and!; [done| |apply mapGet_setLastStart].
    rewrite head_lookup in Hfirst. by eapply list_elem_of_lookup_2.
  - exists next. split_and!; [by rewrite rotate_head by lia| |apply mapGet_setLastStart].
    by eapply list_elem_of_lookup_2.
Qed.

Lemma Reorder_records_head_witness :
  let rrs := setLastStart NewRoundRobinState "claude:1" "B" in
  let result := Reorder rrs "claude" 1 ["A"; "B"; "C"] id in
  ∃ first, head result.1 = Some first
           ∧ first ∈ ["A"; "B"; "C"]
           ∧ mapGet (lastStart result.2) (rrKey "claude" 1) = id first.
Proof.
  apply (Reorder_records_head _ "claude" 1 ["A"; "B"; "C"] id). simpl. lia.
Defined.

(** X15. When the stored name is not the name of any provider of the
    list (the provider was removed since the last call), the call returns
    the input order and starts over from the first provider. *)
Theorem Reorder_unknown_name_restarts {T : Type} (rrs : RoundRobinState)
    (platform : string) (level : Z) (providers : list T) (getName : T → string)
    (first : T)
    (Hlen : 2 ≤ length providers)
    (Hfirst : head providers = Some first)
    (Hgone : ∀ p, p ∈ providers →
                  getName p ≠ mapGet (lastStart rrs) (rrKey platform level)) :
  Reorder rrs platform level providers getName
  = (providers, setLastStart rrs (rrKey platform level) (getName first)).
Proof.
  apply Reorder_cold; [done..|]. right. by apply Forall_forall.
Qed.

Lemma Reorder_unknown_name_restarts_witness :
  let rrs := setLastStart NewRoundRobinState "claude:1" "Z" in
  Reorder rrs "claude" 1 ["A"; "B"] id
  = (["A"; "B"], setLastStart rrs (rrKey "claude" 1) (id "A")).
Proof.
  intros rrs.
  apply (Reorder_unknown_name_restarts rrs "claude" 1 ["A"; "B"] id "A").
  - simpl. lia.
  - reflexivity.
  - intros p Hp. rewrite !elem_of_cons, elem_of_nil in Hp.
    destruct Hp as [->|[->|[]]]; vm_compute; discriminate.
Defined.

Section ReorderCycle.

Context {T : Type} (getName : T → string) (platform : string) (level : Z).

(** Rotations are taken modulo the length. *)
Lemma rotate_mod (providers : list T) (n : nat) :
  rotate (n `mod` length providers) providers = rotate n providers.
Proof. unfold rotate. by rewrite Nat.Div0.mod_mod. Qed.

(** From a state that stores the name of the provider at position [j],
    call number [k + 1] returns the list rotated by [j + k + 1]. *)
Lemma Reorder_cycle_from (providers : list T) (k j : nat) (rrs : RoundRobinState) (a : T) :
  2 ≤ length providers →
  NoDup (getName <$> providers) →
  Forall (λ p, getName p ≠ "") providers →
  providers !! j = Some a →
  mapGet (lastStart rrs) (rrKey platform level) = getName a →
  (Reorder (stateAfter k rrs platform level providers getName)
           platform level providers getName).1
  = rotate (j + k + 1) providers.
Proof.
  intros Hlen Hnodup Hnamed. revert j rrs a.
  induction k as [|k IH]; intros j rrs a Hj Hlast.
  - destruct (lookup_lt_is_Some_2 providers ((j + 1) `mod` length providers))
      as [next Hnext]; [apply Nat.mod_upper_bound; lia|].
    simpl. rewrite (Reorder_after getName platform level rrs providers j a next);
      [by rewrite Nat.add_0_r|done..| |done|done].
    rewrite Forall_forall in Hnamed. apply Hnamed. by eapply list_elem_of_lookup_2.
  - destruct (lookup_lt_is_Some_2 providers ((j + 1) `mod` length providers))
      as [next Hnext]; [apply Nat.mod_upper_bound; lia|].
    unfold stateAfter. rewrite Nat.iter_succ_r.
    rewrite (Reorder_after getName platform level rrs providers j a next);
      [|done..| |done|done].
    2:{ rewrite Forall_forall in Hnamed. apply Hnamed. by eapply list_elem_of_lookup_2. }
    simpl. fold (stateAfter k (setLastStart rrs (rrKey platform level) (getName next))
                   platform level providers getName).
    rewrite (IH ((j + 1) `mod` length providers) _ next);
      [|done|apply mapGet_setLastStart].
    rewrite <-rotate_mod, <-(rotate_mod _ (j + S k + 1)). f_equal.
    rewrite <-Nat.add_assoc, Nat.Div0.add_mod_idemp_l. f_equal. lia.
Qed.

End ReorderCycle.

(** X16. Starting from the empty state, with at least two providers whose
    names are pairwise distinct and non-empty, call number [k + 1] returns
    the input rotated by [k]: the provider at position [k mod n] comes
    first, and the orders repeat with period [n]. *)
Theorem Reorder_full_cycle {T : Type} (getName : T → string) (platform : string)
    (level : Z) (providers : list T)
    (Hlen : 2 ≤ length providers)
    (Hdistinct : NoDup (getName <$> providers))
    (Hnamed : Forall (λ p, getName p ≠ "") providers) :
  let call k := (Reorder (stateAfter k NewRoundRobinState platform level providers getName)
                         platform level providers getName).1 in
  ∀ k, call k = rotate k providers
       ∧ head (call k) = providers !! (k `mod` length providers)
       ∧ call (k + length providers) = call k.
Proof.
  intros call.
  assert (∀ k, call k = rotate k providers) as Hcall.
  { intros k. subst call. simpl.
    destruct providers as [|first rest] eqn:Hp; [simpl in Hlen; lia|].
    rewrite <-Hp in *.
    assert (head providers = Some first) as Hfirst by by rewrite Hp.
    assert (Reorder NewRoundRobinState platform level providers getName
            = (providers, setLastStart NewRoundRobinState (rrKey platform level)
                            (getName first))) as Hcold.
    { apply Reorder_cold; [done..|]. by left. }
    destruct k as [|k].
    - simpl. rewrite Hcold. simpl. unfold rotate.
      rewrite Nat.Div0.mod_0_l. simpl. by rewrite app_nil_r.
    - unfold stateAfter. rewrite Nat.iter_succ_r, Hcold. simpl.
      fold (stateAfter k (setLastStart NewRoundRobinState (rrKey platform level)
                            (getName first)) platform level providers getName).
      rewrite (Reorder_cycle_from getName platform level providers k 0 _ first);
        [f_equal; lia|done..| |apply mapGet_setLastStart].
      by rewrite <-head_lookup. }
  intros k. split_and!; [done| |].
  - rewrite Hcall, head_lookup, lookup_rotate_r by lia. unfold rotate_nat_add.
    by rewrite <-Nat2Z.inj_add, <-Nat2Z.inj_mod, Nat2Z.id, Nat.add_0_r.
  - rewrite !Hcall, <-rotate_mod, <-(rotate_mod _ k). f_equal.
    rewrite <-Nat.Div0.add_mod_idemp_r, Nat.Div0.mod_same, Nat.add_0_r. done.
Qed.

Lemma Reorder_full_cycle_witness :
  let providers := ["A"; "B"; "C"] in
  let call k := (Reorder (stateAfter k NewRoundRobinState "claude" 1 providers id)
                         "claude" 1 providers id).1 in
  call 4 = rotate 4 providers
  ∧ head (call 4) = providers !! (4 `mod` length providers)
  ∧ call (4 + length providers) = call 4.
Proof.
  refine (Reorder_full_cycle id "claude" 1 ["A"; "B"; "C"] _ _ _ 4).
  - simpl. lia.
  - simpl. apply NoDup_cons. split.
    + rewrite !elem_of_cons, elem_of_nil. intros [?|[?|[]]]; discriminate.
    + apply NoDup_cons. split; [|apply NoDup_singleton].
      rewrite list_elem_of_singleton. discriminate.
  - repeat constructor; discriminate.
Defined.

(* ===================================================================== *)
(** * Further properties of the retry bookkeeping *)
(* ===================================================================== *)



Lemma RecordAttempts_snoc (rc : RetryContext) (attempts : list Attempt) (a : Attempt) :
  RecordAttempts rc (attempts ++ [a])
  = RecordAttempt (RecordAttempts rc attempts) a.1.1 a.1.2 a.2.
Proof. unfold RecordAttempts. by rewrite foldl_snoc. Qed.

(** X18. After a run of attempts that does not exhaust the range of
    [int]: [TotalAttempts] has grown by the number of attempts,
    [LastProvider] and [LastDuration] are those of the last attempt,
    [LastError] is the last non-nil error of the run, or the one recorded
    before when every attempt of the run succeeded, and the configuration
    is unchanged. *)
Theorem RecordAttempts_summary (rc : RetryContext) (attempts : list Attempt)
    (Hrange : (GoInt.min_int ≤ TotalAttempts rc)%Z
              ∧ (TotalAttempts rc + Z.of_nat (length attempts) ≤ GoInt.max_int)%Z) :
  let rc' := RecordAttempts rc attempts in
  TotalAttempts rc' = (TotalAttempts rc + Z.of_nat (length attempts))%Z
  ∧ LastError rc' = match lastFailure attempts with
                    | Some e => Some e
                    | None => LastError rc
                    end
  ∧ (∀ a, last attempts = Some a → LastProvider rc' = a.1.1 ∧ LastDuration rc' = a.1.2)
  ∧ MaxRetryPerProvider rc' = MaxRetryPerProvider rc
  ∧ RetryWaitDuration rc' = RetryWaitDuration rc.
Proof.
  intros rc'. subst rc'. destruct Hrange as [Hmin Hmax].
  induction attempts as [|a attempts IH] using rev_ind.
  { simpl. split_and!; [lia|done| |done|done]. by intros a. }
  rewrite length_app in Hmax. simpl in Hmax.
  destruct IH as (Htotal & Herror & _ & Hmaxretry & Hwait); [lia|].
  rewrite RecordAttempts_snoc. unfold RecordAttempt at 1 2 3 4 5. simpl.
  split_and!.
  - rewrite Htotal, GoIntFacts.incr_below_max by lia.
    rewrite length_app. simpl. lia.
  - unfold lastFailure. rewrite omap_app, last_app. simpl.
    destruct a.2 as [e|]; simpl; [done|]. exact Herror.
  - intros b. rewrite last_snoc. by intros [= <-].
  - done.
  - done.
Qed.

(** Scenario 7 of the specification: A fails three times, then B
    succeeds. *)
Lemma RecordAttempts_summary_witness :
  let attempts : list Attempt :=
    [("A", 5, Some "HTTP 500"); ("A", 6, Some "HTTP 502"); ("A", 4, Some "HTTP 503");
     ("B", 9, None)]%Z in
  let rc' := RecordAttempts (NewRetryContext 3 1) attempts in
  TotalAttempts rc' = 4%Z ∧ LastError rc' = Some "HTTP 503" ∧ LastProvider rc' = "B".
Proof.
  intros attempts rc'.
  destruct (RecordAttempts_summary (NewRetryContext 3 1) attempts)
    as (Htotal & Herror & Hlast & _).
  { vm_compute. split; discriminate. }
  split_and!; [exact Htotal|exact Herror|exact (proj1 (Hlast _ eq_refl))].
Defined.

(* ===================================================================== *)
(** * Further properties of the tool-use repair *)
(* ===================================================================== *)

Section RepairMore.

Context `{GjsonText}.

(** A body with a message appended is not the body it came from. *)
Lemma appendsMessage_ne (body out msg : json) : appendsMessage body out msg → out ≠ body.
Proof.
  intros Happend ->.
  destruct (appendsMessage_messages _ _ _ Happend) as (messages & Hbody & Hout).
  rewrite Hbody in Hout. injection Hout as Hout.
  apply (f_equal length) in Hout. rewrite length_app in Hout. simpl in Hout. lia.
Qed.

(** X19. The flag tells the truth and the error is never set: the result
    is the input exactly when [repaired] is false, a repair makes the
    messages array one longer, and no run on a JSON document returns an
    error. *)
Theorem FixIncompleteToolUse_flag (body : json) :
  let result := FixIncompleteToolUse body in
  result.2 = None
  ∧ (result.1.2 = false ↔ result.1.1 = body)
  ∧ messageCount result.1.1 = messageCount body + (if result.1.2 then 1 else 0).
Proof.
  intros result. subst result.
  destruct (FixIncompleteToolUse_cases body)
    as [->|(messages & idx & msg & items & out & _ & _ & _ & _ & _ & -> & Happend)];
    simpl.
  { split_and!; [done|done|lia]. }
  split_and!; [done| |].
  - split; [done|]. intros Hsame. by destruct (appendsMessage_ne _ _ _ Happend).
  - destruct (appendsMessage_messages _ _ _ Happend) as (messages' & Hbody & Hout).
    unfold messageCount. rewrite Hbody, Hout. simpl. by rewrite length_app.
Qed.


(** X21. When the last assistant message is the final message of the
    array, one pass reaches a fixed point: every further pass returns the
    body of the first pass. *)
Theorem repairTimes_fixpoint_when_trailing (body : json) (messages : list json)
    (idx : nat) (msg : json)
    (Hmessages : gjson_Get body "messages" = Some (JArray messages))
    (Hlast : isLastAssistant messages idx msg)
    (Htrailing : idx + 1 = length messages) :
  ∀ k, repairTimes (S k) body = repairTimes 1 body.
Proof.
  induction k as [|k IH]; [done|].
  unfold repairTimes in *. rewrite Nat.iter_succ, IH. simpl.
  by rewrite (FixIncompleteToolUse_stable_when_trailing body messages idx msg).
Qed.

(** One pass over a body whose dangling assistant message is followed by
    an unanswered message leaves a body of the same kind, one message
    longer. *)
Lemma repair_keeps_need (body : json) (messages : list json) (idx : nat) (msg : json)
    (items : list json) :
  gjson_Get body "messages" = Some (JArray messages) →
  isLastAssistant messages idx msg →
  gjson_Get msg "content" = Some (JArray items) →
  danglingIds items ≠ [] →
  idx + 1 < length messages →
  ¬ answered messages idx →
  ∃ messages',
    gjson_Get (FixIncompleteToolUse body).1.1 "messages" = Some (JArray messages')
    ∧ length messages' = length messages + 1
    ∧ isLastAssistant messages' idx msg
    ∧ ¬ answered messages' idx.
Proof.
  intros Hm Hl Hc Hids Hlt Hnot.
  destruct (FixIncompleteToolUse_repair body messages idx msg items)
    as (out & -> & Happend); [done|by apply lastAssistant_spec|done|done| |].
  { destruct (hasToolResultAfter messages idx) eqn:Hafter; [|done].
    by apply hasToolResultAfter_spec in Hafter. }
  destruct (appendsMessage_messages _ _ _ Happend) as (messages' & Hbody & Hout).
  rewrite Hm in Hbody. injection Hbody as <-. simpl.
  exists (messages ++ [newUserMsg (danglingIds items)]).
  split_and!; [done|by rewrite length_app|by apply isLastAssistant_snoc|].
  intros (next & its & item & Hnext & Hrest). apply Hnot.
  rewrite lookup_app_l in Hnext by done. by exists next, its, item.
Qed.

(** X22. When the last assistant message has dangling ids and is followed
    by a message without tool_result, every pass appends one more message:
    after [k] passes the messages array is [k] longer, so no number of
    passes reaches a fixed point. *)
Theorem repairTimes_keeps_appending (body : json) (messages : list json) (idx : nat)
    (msg : json) (items : list json)
    (Hmessages : gjson_Get body "messages" = Some (JArray messages))
    (Hlast : isLastAssistant messages idx msg)
    (Hcontent : gjson_Get msg "content" = Some (JArray items))
    (Hids : danglingIds items ≠ [])
    (Hfollowed : idx + 1 < length messages)
    (Hnot : ¬ answered messages idx) :
  ∀ k, messageCount (repairTimes k body) = length messages + k.
Proof.
  intros k. revert body messages Hmessages Hlast Hfollowed Hnot.
  induction k as [|k IH]; intros body messages Hmessages Hlast Hfollowed Hnot.
  { unfold messageCount. simpl. rewrite Hmessages. simpl. lia. }
  destruct (repair_keeps_need body messages idx msg items)
    as (messages' & Hm' & Hlen & Hlast' & Hnot'); [done..|].
  unfold repairTimes. rewrite Nat.iter_succ_r.
  fold (repairTimes k (FixIncompleteToolUse body).1.1).
  rewrite (IH _ messages'); [lia|done|done|lia|done].
Qed.

End RepairMore.

Lemma repairTimes_fixpoint_when_trailing_witness :
  @repairTimes plainText 4 sampleTrailing = @repairTimes plainText 1 sampleTrailing.
Proof.
  refine (@repairTimes_fixpoint_when_trailing plainText sampleTrailing
            [sampleUserText; sampleAssistant] 1 sampleAssistant _ _ _ 3).
  - reflexivity.
  - split_and!; [reflexivity|reflexivity|].
    intros j later Hj Hlater. apply lookup_lt_Some in Hlater. simpl in Hlater. lia.
  - reflexivity.
Defined.

Lemma repairTimes_keeps_appending_witness :
  messageCount (@repairTimes plainText 3 sampleFollowed) = 2 + 3.
Proof.
  refine (@repairTimes_keeps_appending plainText sampleFollowed
            [sampleAssistant; sampleUserText] 0 sampleAssistant
            [JObject [("type", JString "text"); ("text", JString "running")];
             JObject [("type", JString "tool_use"); ("id", JString "T1")];
             JObject [("type", JString "tool_use"); ("id", JString "T2")]]
            _ _ _ _ _ _ 3).
  - reflexivity.
  - split_and!; [reflexivity|reflexivity|].
    intros [|[|j]] later Hj Hlater; [lia| |done].
    injection Hlater as <-. vm_compute. discriminate.
  - reflexivity.
  - vm_compute. discriminate.
  - simpl. lia.
  - intros (next & items & item & Hnext & _ & Hcontent & _).
    injection Hnext as <-. discriminate Hcontent.
Defined.
